(** * UNR PSY 763 course notebooks: the labeler's design matrix, the
      curve-fitting helpers and the PCA snippets

    The repository is a set of Jupyter notebooks.  This development embeds
    the few computations they define themselves:

    - [utils/Labeler_example.ipynb]: the tag specifications, the image-index
      range, the retrieval of the labels from the decoded JSON file and the
      loop that turns the labels into a one-hot design matrix [X]
      ([Labeler], [Conversion]);
    - [Week_13_Linear_Nonlinear_Fits]: the helpers [gauss] and [sinx]
      ([CurveFit], [CurveFacts]), the helper [ridge] ([Ridge]), the two
      error surfaces ([Surface]), the design matrix of Gaussian regressors
      and the reshaped weights ([Linearized]);
    - [Week_14_PCA]: the two computations of the projection of [b] onto [a]
      ([PCA]) and the covariance matrix [ycov] ([Covariance]).

    [Kernel] keeps the text of the three helpers and of the conversion cell
    as syntax trees and runs them over the state of a notebook kernel, to
    tell what they read and what they change.

    Conventions.  A Python call either returns a value or raises: results
    live in [Py.result].  The design matrix, [ridge] and [ycov] compute on
    IEEE doubles, modelled by Rocq's primitive floats with their rounding
    ([Doubles]).  The formula of [gauss] and [sinx], which need [exp] and
    [sin], the projections and the loops around them are modelled in exact
    arithmetic: there rounding is not modelled, and a division by zero is a
    failure of the model. *)

From HB Require Import structures.
From Stdlib Require Import String Ascii ZArith Reals Lra Lia Floats.
From Stdlib Require QArith.
From mathcomp Require Import boot order algebra field.

Set Implicit Arguments.
Unset Strict Implicit.
Unset Printing Implicit Defensive.

Import GRing.Theory Num.Theory Order.POrderTheory.

(** Strings are compared with [==], as Python's [str.__eq__]. *)
HB.instance Definition _ := hasDecEq.Build string String.eqb_spec.

(** ** Python results *)

Module Py.

Inductive exn : Type :=
  | ValueError
  | KeyError (key : string)
  | TypeError
  | IndexError
  | ZeroDivisionError
  | LinAlgError.

Inductive result (A : Type) : Type :=
  | Ok (a : A)
  | Raise (e : exn).

Arguments Ok {A} a.
Arguments Raise {A} e.

Definition bind {A B : Type} (r : result A) (k : A -> result B) : result B :=
  match r with
  | Ok a => k a
  | Raise e => Raise e
  end.

End Py.

Import Py.

Notation "x <- r ;; k" := (Py.bind r (fun x => k))
  (at level 61, r at next level, right associativity).

(** ** The labeler notebook *)

Module Labeler.

Local Open Scope string_scope.

(** A Python [dict] with string keys, in insertion order. *)
Definition dict (V : Type) : Type := seq (string * V).

Fixpoint dict_get {V : Type} (d : dict V) (k : string) : result V :=
  match d with
  | [::] => Raise (KeyError k)
  | (k', v) :: d' => if k' == k then Ok v else dict_get d' k
  end.

(** Cell 2: [tag_specs]. *)
Definition tag_specs : dict (seq string) :=
  [:: ("outdoors",
       [:: "outdoors"; "indoors"; "under water"; "unclear"; "not a scene";
           "untagged"]);
      ("evoked_emotion",
       [:: "Anger"; "Disgust"; "Fear"; "Happiness"; "Sadness"; "Surprise";
           "Neutral"; "untagged"]);
      ("reward", [:: "0"; "1"; "2"; "3"; "4"; "untagged"]);
      ("curves_vs_lines", [:: "curved"; "mix"; "lines"; "untagged"])].

(** Cell 3: the levels of the feature to tag, the labeler's input dictionary
    and the range of image indices. *)
Definition distance_features : seq string :=
  [:: "<2 ft"; "<4 ft (arm's length)"; "<20 ft (same room)"; "< 100 ft";
      "> 100 ft"; "untagged"].

Definition tag_dict : dict (seq string) :=
  [:: ("distance", distance_features)].

Definition feature_classes : seq string := [:: "distance"].

Definition tag_file : string := "demo_labels.json".

(** Python's [range(start, stop, step)]: [ValueError] for a zero step,
    otherwise the arithmetic progression from [start] that stays before
    [stop]; its length is computed as CPython does. *)
Definition range_length (start stop step : Z) : Z :=
  if Z.ltb 0 step then
    if Z.ltb start stop then Z.add (Z.div (Z.sub (Z.sub stop start) 1) step) 1
    else Z0
  else
    if Z.ltb stop start
    then Z.add (Z.div (Z.sub (Z.sub start stop) 1) (Z.opp step)) 1
    else Z0.

Definition range (start stop step : Z) : result (seq Z) :=
  if Z.eqb step 0 then Raise ValueError
  else Ok [seq Z.add start (Z.mul step (Z.of_nat k))
          | k <- iota 0 (Z.to_nat (range_length start stop step))].

Definition label_range : result (seq Z) := range 0 1386 1.

(** [len(label_range)]: the number of images to label. *)
Definition label_count : result nat :=
  indices <- label_range ;; Ok (size indices).

(** The numbers of the comment beside [label_range]. *)
Definition n_estimation : nat := 1260.
Definition n_validation : nat := 126.

(** *** The decoded label file

    [json.load] returns dictionaries, lists, strings, numbers, booleans and
    [None]. *)
Inductive json : Type :=
  | JNull
  | JBool (b : bool)
  | JNumber (n : Z)
  | JString (s : string)
  | JArray (items : seq json)
  | JObject (members : dict json).

(** [o[k]] for a string key [k]: a dictionary lookup; lists and strings
    refuse a string index, the other values are not subscriptable. *)
Definition getitem (o : json) (k : string) : result json :=
  match o with
  | JObject members => dict_get members k
  | _ => Raise TypeError
  end.

(** Cell 8: [feature_labels = features['tag_specs']['distance']]. *)
Definition feature_labels (features : json) : result json :=
  specs <- getitem features "tag_specs" ;;
  getitem specs "distance".

(** A list of labels as the JSON array that holds them. *)
Definition json_labels (labels : seq string) : json :=
  JArray [seq JString s | s <- labels].

(** *** The one-hot conversion *)

(** A two-dimensional array of doubles, row by row. *)
Definition ndarray2 : Type := seq (seq float).

(** [np.zeros((m, n))]. *)
Definition np_zeros (shape : nat * nat) : ndarray2 :=
  nseq shape.1 (nseq shape.2 0%float).

(** [X[i, j] = v] for non-negative [i], [j]: in place, [IndexError] out of
    bounds. *)
Definition setitem2 (X : ndarray2) (i j : nat) (v : float) : result ndarray2 :=
  if (i < size X) && (j < size (nth [::] X i))
  then Ok (set_nth [::] X i (set_nth 0%float (nth [::] X i) j v))
  else Raise IndexError.

(** [l.index(x)]: the position of the first element equal to [x],
    [ValueError] when there is none. *)
Fixpoint list_index (l : seq string) (x : string) : result nat :=
  match l with
  | [::] => Raise ValueError
  | y :: l' => if y == x then Ok 0 else (k <- list_index l' x ;; Ok k.+1)
  end.

(** [enumerate(l)], counting from [start]. *)
Fixpoint enumerate_from (start : nat) (l : seq string) : seq (nat * string) :=
  match l with
  | [::] => [::]
  | x :: l' => (start, x) :: enumerate_from start.+1 l'
  end.

Definition enumerate (l : seq string) : seq (nat * string) :=
  enumerate_from 0 l.

(** The body of the [for] loop, run over the remaining pairs of the
    enumeration, threading the array it updates. *)
Fixpoint onehot_loop (feature_names : seq string) (it : seq (nat * string))
    (X : ndarray2) : result ndarray2 :=
  match it with
  | [::] => Ok X
  | (i, this_label) :: rest =>
      j <- list_index feature_names this_label ;;
      X' <- setitem2 X i j 1%float ;;
      onehot_loop feature_names rest X'
  end.

(** Cell 8, from [n_images = len(feature_labels)] on. *)
Definition design_matrix (feature_names feature_labels : seq string)
    : result ndarray2 :=
  let n_images := size feature_labels in
  let n_features := size feature_names in
  let X := np_zeros (n_images, n_features) in
  onehot_loop feature_names (enumerate feature_labels) X.

(** Reading the array: [X[i, j]] and the sum of a row, added left to
    right from [0.0]. *)
Definition getitem2 (X : ndarray2) (i j : nat) : float :=
  nth 0%float (nth [::] X i) j.

Definition row_sum (row : seq float) : float :=
  foldl PrimFloat.add 0%float row.

(** [j] is the index of the first occurrence of [x] in [l]. *)
Definition first_occurrence (l : seq string) (x : string) (j : nat) : bool :=
  [&& j < size l, nth "" l j == x & all (fun y => y != x) (take j l)].

(** *** Facts about the loop *)

Section OneHot.

Variable feature_names : seq string.

Lemma list_index_mem (x : string) :
  x \in feature_names ->
  list_index feature_names x = Ok (index x feature_names).
Proof.
elim: feature_names => [|y l IH] //=.
rewrite in_cons (eq_sym x); case: (y == x) => //= /IH -> //.
Qed.

Lemma list_index_notin (x : string) :
  x \notin feature_names -> list_index feature_names x = Raise ValueError.
Proof.
elim: feature_names => [|y l IH] //=.
rewrite in_cons (eq_sym x) negb_or; case: (y == x) => //= /IH -> //.
Qed.

Lemma first_occurrence_index (x : string) (j : nat) :
  x \in feature_names ->
  first_occurrence feature_names x j = (j == index x feature_names).
Proof.
move=> xin; rewrite /first_occurrence; apply/idP/eqP.
  case/and3P=> jlt nthj /allP notbefore.
  apply/eqP; rewrite eqn_leq; apply/andP; split.
    rewrite leqNgt; apply/negP=> ilt.
    have: x \in take j feature_names.
      rewrite -(nth_index "" xin) -(nth_take "" ilt) mem_nth // size_take.
      by rewrite jlt.
    by move/notbefore; rewrite eqxx.
  rewrite leqNgt; apply/negP=> jlt'.
  by have := before_find "" jlt'; rewrite /= nthj.
move=> ->; rewrite index_mem xin nth_index //= eqxx /=.
apply/(all_nthP "")=> k; rewrite size_take index_mem xin => klt.
by rewrite nth_take //; have := before_find "" klt => /= ->.
Qed.

(** Writing in bounds succeeds and keeps the shape. *)
Lemma setitem2_ok (X : ndarray2) (i j : nat) (v : float) :
  i < size X -> j < size (nth [::] X i) ->
  setitem2 X i j v
  = Ok (set_nth [::] X i (set_nth 0%float (nth [::] X i) j v)).
Proof. by rewrite /setitem2 => -> ->. Qed.

Lemma size_set_nth_in (T : Type) (x0 : T) (s : seq T) (i : nat) (v : T) :
  i < size s -> size (set_nth x0 s i v) = size s.
Proof. by move=> ilt; rewrite size_set_nth; apply/maxn_idPr. Qed.

(** The loop over the labels numbered from [k] rewrites the rows [k],
    [k + 1], ... of the array and no other. *)
Lemma onehot_loop_rows (labels : seq string) (k : nat) (X : ndarray2) :
  all (fun l => l \in feature_names) labels ->
  k + size labels <= size X ->
  (forall i, i < size X -> size (nth [::] X i) = size feature_names) ->
  exists X',
    [/\ onehot_loop feature_names (enumerate_from k labels) X = Ok X',
        size X' = size X
      & forall i,
          nth [::] X' i
          = if k <= i < k + size labels
            then set_nth 0%float (nth [::] X i)
                   (index (nth "" labels (i - k)) feature_names) 1%float
            else nth [::] X i].
Proof.
elim: labels k X => [|x ls IH] k X /=.
  move=> _ _ _; exists X; split=> // i.
  by rewrite addn0; case: ltngtP.
case/andP=> xin lsin; rewrite addnS => klt rows.
have kX : k < size X by apply: leq_ltn_trans klt; rewrite leq_addr.
have jlt : index x feature_names < size (nth [::] X k).
  by rewrite rows // index_mem.
rewrite (list_index_mem xin) /= setitem2_ok //=.
set X1 := set_nth _ X k _.
have sz1 : size X1 = size X by rewrite size_set_nth_in.
have [||X' [run szX' rowsX']] := IH k.+1 X1 lsin.
- by rewrite sz1 addSn.
- move=> i; rewrite sz1 => ilt; rewrite nth_set_nth /=.
  by case: eqP => _; [rewrite size_set_nth_in // rows | rewrite rows].
exists X'; split; [exact: run | by rewrite szX' | ] => i.
rewrite rowsX' nth_set_nth /= addSn ltnS.
case: (ltngtP k i) => [lt_ki|lt_ik|<-] /=.
- have -> : i - k = (i - k.+1).+1 by rewrite subnS prednK // subn_gt0.
  by [].
- by [].
- by rewrite leq_addr subnn.
Qed.

End OneHot.

(** Adding zeros leaves [0.0] and [1.0] as they are. *)
Lemma foldl_add_zeros (m : nat) :
  foldl PrimFloat.add 0%float (nseq m 0%float) = 0%float /\
  foldl PrimFloat.add 1%float (nseq m 0%float) = 1%float.
Proof.
by elim: m => [|m [IH0 IH1]].
Qed.

(** A row of zeros with a single [1.0] written into it sums to [1.0]. *)
Lemma row_sum_one_hot (m j : nat) :
  j < m -> row_sum (set_nth 0%float (nseq m 0%float) j 1%float) = 1%float.
Proof.
rewrite /row_sum; elim: m j => [|m IH] [|j] //=.
  by move=> _; have [_] := foldl_add_zeros m.
by rewrite ltnS => /IH.
Qed.

(** The rows of the design matrix, before any reading of its entries. *)
Lemma design_matrix_rows (feature_names feature_labels : seq string) :
  all (fun l => l \in feature_names) feature_labels ->
  exists X,
    [/\ design_matrix feature_names feature_labels = Ok X,
        size X = size feature_labels
      & forall i, i < size feature_labels ->
          nth [::] X i
          = set_nth 0%float (nseq (size feature_names) 0%float)
              (index (nth "" feature_labels i) feature_names) 1%float].
Proof.
move=> known; rewrite /design_matrix /enumerate /np_zeros /=.
have [||X [run szX rowsX]] :=
  @onehot_loop_rows feature_names feature_labels 0
    (nseq (size feature_labels) (nseq (size feature_names) 0%float)) known.
- by rewrite size_nseq add0n.
- by move=> i; rewrite size_nseq => ilt; rewrite nth_nseq ilt size_nseq.
exists X; split=> //; first by rewrite szX size_nseq.
by move=> i ilt; rewrite rowsX add0n /= ilt subn0 nth_nseq ilt.
Qed.

(** A label outside the vocabulary stops the conversion: [index] raises
    [ValueError]. *)
Lemma design_matrix_unknown_label (feature_names : seq string) (l : string)
    (rest : seq string) :
  l \notin feature_names ->
  design_matrix feature_names (l :: rest) = Raise ValueError.
Proof.
by move=> unknown; rewrite /design_matrix /= list_index_notin.
Qed.

(** The retrieval succeeds only along the nested path. *)
Lemma feature_labels_inv (features labels : json) :
  feature_labels features = Ok labels ->
  exists2 specs, getitem features "tag_specs" = Ok specs
               & getitem specs "distance" = Ok labels.
Proof.
rewrite /feature_labels; case: (getitem features _) => [specs|e] //= get.
by exists specs.
Qed.

(** Without the key ['tag_specs'] the retrieval raises [KeyError]. *)
Lemma feature_labels_KeyError (members : dict json) :
  dict_get members "tag_specs" = Raise (KeyError "tag_specs") ->
  feature_labels (JObject members) = Raise (KeyError "tag_specs").
Proof. by rewrite /feature_labels /= => ->. Qed.

(** C1.  When every label of [feature_labels] occurs in [feature_names],
    the conversion returns an array [X] with one row per label and one
    column per name; [X[i, j]] is [1.0] exactly when [j] is the index of the
    first occurrence of the [i]-th label in [feature_names] and [0.0] at
    every other column, and every row sums to [1.0]. *)
Theorem design_matrix_one_hot (feature_names feature_labels : seq string) :
  all (fun l => l \in feature_names) feature_labels ->
  exists X,
    [/\ design_matrix feature_names feature_labels = Ok X,
        size X = size feature_labels,
        forall i, i < size feature_labels ->
          size (nth [::] X i) = size feature_names,
        forall i j, i < size feature_labels -> j < size feature_names ->
          getitem2 X i j
          = if first_occurrence feature_names (nth "" feature_labels i) j
            then 1%float else 0%float
      & forall i, i < size feature_labels ->
          row_sum (nth [::] X i) = 1%float].
Proof.
move=> known; have [X [run szX rowsX]] := design_matrix_rows known.
have inames i : i < size feature_labels ->
    index (nth "" feature_labels i) feature_names < size feature_names.
  by move=> ilt; rewrite index_mem (allP known) // mem_nth.
exists X; split=> //.
- by move=> i ilt; rewrite rowsX // size_set_nth_in ?size_nseq // inames.
- move=> i j ilt jlt; rewrite /getitem2 rowsX // nth_set_nth /= nth_nseq jlt.
  by rewrite first_occurrence_index // (allP known) // mem_nth.
- by move=> i ilt; rewrite rowsX // row_sum_one_hot // inames.
Qed.

Lemma design_matrix_one_hot_witness :
  exists X,
    [/\ design_matrix distance_features [:: "untagged"; "<2 ft"; "> 100 ft"]
        = Ok X,
        size X = 3,
        forall i, i < 3 -> size (nth [::] X i) = 6,
        forall i j, i < 3 -> j < 6 ->
          getitem2 X i j
          = if first_occurrence distance_features
                 (nth "" [:: "untagged"; "<2 ft"; "> 100 ft"] i) j
            then 1%float else 0%float
      & forall i, i < 3 -> row_sum (nth [::] X i) = 1%float].
Proof.
apply: (@design_matrix_one_hot distance_features
          [:: "untagged"; "<2 ft"; "> 100 ft"]).
by vm_compute.
Defined.

(** C6.  The four tag specifications of [tag_specs], named ['outdoors'],
    ['evoked_emotion'], ['reward'] and ['curves_vs_lines'], and the list
    [distance_features] all contain the label ['untagged']. *)
Theorem untagged_in_every_spec :
  [/\ [seq kv.1 | kv <- tag_specs]
      = [:: "outdoors"; "evoked_emotion"; "reward"; "curves_vs_lines"],
      all (fun kv => "untagged" \in kv.2) tag_specs,
      "untagged" \in distance_features
    & all (fun kv => "untagged" \in kv.2) tag_dict].
Proof. by split; vm_compute. Qed.

(** C7.  [range(0, 1386, 1)] is the list of the indices 0, ..., 1385; it has
    1386 = 1260 + 126 elements; a list of labels of that length, drawn from
    [distance_features], has 1386 entries and its design matrix has 1386
    rows. *)
Theorem label_range_rows (feature_labels : seq string) :
  label_count = Ok (size feature_labels) ->
  all (fun l => l \in distance_features) feature_labels ->
  [/\ label_range = Ok [seq Z.of_nat k | k <- iota 0 1386],
      n_estimation + n_validation = 1386,
      size feature_labels = 1386
    & exists X, design_matrix distance_features feature_labels = Ok X /\
                size X = 1386].
Proof.
have range_eq : label_range = Ok [seq Z.of_nat k | k <- iota 0 1386].
  by vm_compute.
rewrite /label_count range_eq /Py.bind size_map size_iota => -[count] known.
have [X [run szX _]] := design_matrix_rows known.
by split=> //; exists X; rewrite szX -count.
Qed.

Lemma label_range_rows_witness :
  [/\ label_range = Ok [seq Z.of_nat k | k <- iota 0 1386],
      n_estimation + n_validation = 1386,
      size (nseq 1386 "untagged") = 1386
    & exists X, design_matrix distance_features (nseq 1386 "untagged") = Ok X /\
                size X = 1386].
Proof.
apply: (@label_range_rows (nseq 1386 "untagged")); by vm_compute.
Defined.

(** *** The label file of the specification *)

(** Modelled from the spec: the labeler that writes the file is not among
    the sources; the specification describes its output as a JSON object
    keyed by tag-specification name, each value the ordered labels of that
    specification, plus the original tag specification echoed back.  A tag
    specification is what cells 2 and 3 build: a dictionary from a name to
    its levels. *)
Definition json_tag_dict (d : dict (seq string)) : json :=
  JObject [seq (kv.1, json_labels kv.2) | kv <- d].

(** Modelled from the spec: the decoded file for the notebook's
    [tag_dict], with the labels of ['distance'] at the top-level key
    ['distance'] and the echo of [tag_dict] at the key the notebook
    subscripts, ['tag_specs']. *)
Definition label_file (labels : seq string) : json :=
  JObject [:: ("distance", json_labels labels);
              ("tag_specs", json_tag_dict tag_dict)].

(** The six-by-six array with [1.0] on its diagonal. *)
Definition np_identity (n : nat) : ndarray2 :=
  [seq [seq (if i == j then 1%float else 0%float) | j <- iota 0 n]
  | i <- iota 0 n].

Lemma json_labels_inj : injective json_labels.
Proof.
move=> l1 l2 [] /inj_map; apply.
by move=> s1 s2 [].
Qed.

(** A top-level key named after the tag specification is never read. *)
Lemma feature_labels_skips_distance (labels : json) (rest : dict json) :
  feature_labels (JObject (("distance", labels) :: rest))
  = feature_labels (JObject rest).
Proof. by []. Qed.

(** C3.  On a label file laid out as the specification says, the labels of
    ['distance'] sit at the top-level key ['distance'], but the notebook
    does not retrieve them there: [features['tag_specs']['distance']] is the
    echoed list of levels, whatever the labels are; it is the list of labels
    only when the labels happen to be the six levels in order; and the
    conversion then builds the six-by-six identity instead of one row per
    image. *)
Theorem feature_labels_reads_echo (labels : seq string) :
  let features := label_file labels in
  [/\ getitem features "distance" = Ok (json_labels labels),
      feature_labels features = Ok (json_labels distance_features),
      feature_labels features = Ok (json_labels labels)
      <-> labels = distance_features
    & design_matrix distance_features distance_features = Ok (np_identity 6)].
Proof.
split=> //; split=> [read|-> //].
have unwrap := f_equal (fun r => if r is Ok v then v else JNull) read.
by have /= <- := json_labels_inj unwrap.
Qed.

End Labeler.

(** ** The curve-fitting notebook *)

Module CurveFit.

(** *** [gauss] and [sinx], over the reals *)

Section Curves.

Local Open Scope R_scope.

(** [np.e] and [np.pi]. *)
Definition np_e : R := exp 1.
Definition np_pi : R := PI.

(** [x / y]: a zero divisor leaves the reals ([ZeroDivisionError] on Python
    floats, [inf] or [nan] on arrays). *)
Definition true_divide (x y : R) : result R :=
  if Req_dec_T y 0 then Raise ZeroDivisionError else Ok (x / y).

(** [return amp * np.e**(-(x-mu)**2 / (2*sigma))] *)
Definition gauss (x mu sigma amp : R) : result R :=
  q <- true_divide (- ((x - mu) ^ 2)) (2 * sigma) ;;
  Ok (amp * Rpower np_e q).

(** [gauss] on an array [x], element by element, as numpy broadcasts. *)
Fixpoint gauss_array (x : seq R) (mu sigma amp : R) : result (seq R) :=
  match x with
  | [::] => Ok [::]
  | x0 :: x' =>
      y0 <- gauss x0 mu sigma amp ;;
      y' <- gauss_array x' mu sigma amp ;;
      Ok (y0 :: y')
  end.

(** [return np.sin(x * 2 * np.pi * freq + phase) * amp] *)
Definition sinx (x freq phase amp : R) : R :=
  sin (x * 2 * np_pi * freq + phase) * amp.

(** The Gaussian function of the docstring and of the specification: [sigma]
    is the standard deviation. *)
Definition standard_gaussian (x mu sigma amp : R) : R :=
  amp * exp (- ((x - mu) ^ 2) / (2 * sigma ^ 2)).

Lemma np_e_power (q : R) : Rpower np_e q = exp q.
Proof. by rewrite /Rpower /np_e ln_exp Rmult_1_r. Qed.

(** What [gauss] computes: the exponent is divided by [2 * sigma]. *)
Lemma gauss_value (x mu sigma amp : R) :
  sigma <> 0 ->
  gauss x mu sigma amp = Ok (amp * exp (- ((x - mu) ^ 2) / (2 * sigma))).
Proof.
move=> sigma0; rewrite /gauss /true_divide.
case: Req_dec_T => [eq0|_] /=; [exfalso; Lra.lra | rewrite np_e_power //].
Qed.

Lemma gauss_array_value (x : seq R) (mu sigma amp : R) :
  sigma <> 0 ->
  gauss_array x mu sigma amp
  = Ok [seq amp * exp (- ((x0 - mu) ^ 2) / (2 * sigma)) | x0 <- x].
Proof.
by move=> sigma0; elim: x => [|x0 x IH] //=; rewrite gauss_value // IH.
Qed.

(** [gauss] is the standard Gaussian whose variance, not standard deviation,
    is [sigma]. *)
Lemma gauss_sigma_is_variance (x mu sigma amp : R) :
  0 < sigma ->
  gauss x mu sigma amp = Ok (standard_gaussian x mu (R_sqrt.sqrt sigma) amp).
Proof.
move=> sigma_pos; rewrite gauss_value; first by Lra.lra.
rewrite /standard_gaussian; congr (Ok (_ * exp (_ / (2 * _)))).
by rewrite -(Rsqr_pow2 (R_sqrt.sqrt sigma)) Rsqr_sqrt //; Lra.lra.
Qed.

(** C4, at [x = 1], [mu = 0], [sigma = 2], [amp = 1]: [gauss] returns
    [exp (-1/4)], the standard Gaussian of standard deviation 2 is
    [exp (-1/8)], and the two differ. *)
Theorem gauss_not_standard_gaussian :
  [/\ gauss 1 0 2 1 = Ok (exp (- 1 / 4)),
      standard_gaussian 1 0 2 1 = exp (- 1 / 8)
    & gauss 1 0 2 1 <> Ok (standard_gaussian 1 0 2 1)].
Proof.
have code : gauss 1 0 2 1 = Ok (exp (- 1 / 4)).
  rewrite gauss_value; first by Lra.lra.
  by congr (Ok _); rewrite Rmult_1_l; congr exp; Lra.lra.
have spec : standard_gaussian 1 0 2 1 = exp (- 1 / 8).
  by rewrite /standard_gaussian Rmult_1_l; congr exp; Lra.lra.
split=> //; rewrite code spec => -[] /exp_inv; Lra.lra.
Qed.

End Curves.

End CurveFit.

(** ** The PCA notebook *)

Module PCA.

(** *** The projection of [b] onto [a] *)

Section Projection.

Variable R : rcfType.

Local Open Scope ring_scope.

(** One-dimensional arrays of length [n] are rows. *)

(** [np.linalg.norm(a)] *)
Definition np_linalg_norm (n : nat) (a : 'rV[R]_n) : R :=
  Num.sqrt (\sum_j a 0 j ^+ 2).

(** [b * a], element by element, and [np.sum]. *)
Definition multiply (n : nat) (b a : 'rV[R]_n) : 'rV[R]_n :=
  \row_j (b 0 j * a 0 j).

Definition np_sum (n : nat) (a : 'rV[R]_n) : R := \sum_j a 0 j.

(** [x / y] and [A / y]: a zero divisor gives [inf] or [nan], outside the
    model. *)
Definition true_divide (x y : R) : result R :=
  if y == 0 then Raise ZeroDivisionError else Ok (x / y).

Definition matrix_divide (m n : nat) (A : 'M[R]_(m, n)) (y : R)
    : result 'M[R]_(m, n) :=
  if y == 0 then Raise ZeroDivisionError
  else Ok (\matrix_(i, j) (A i j / y)).

(** [a.reshape(2, 1)] *)
Definition reshape_2_1 (a : 'rV[R]_2) : 'M[R]_(2, 1) :=
  \matrix_(i, j) a 0 i.

(** [length_a = np.linalg.norm(a)]
    [proj_b_to_a = np.sum(b * a) / length_a] *)
Definition proj_b_to_a (a b : 'rV[R]_2) : result R :=
  let length_a := np_linalg_norm a in
  true_divide (np_sum (multiply b a)) length_a.

(** [a_2d = a.reshape(2, 1)], [b_2d = b.reshape(2, 1)]
    [proj_b_to_a_fancy = a_2d.T.dot(b_2d) / length_a] *)
Definition proj_b_to_a_fancy (a b : 'rV[R]_2) : result 'M[R]_1 :=
  let length_a := np_linalg_norm a in
  let a_2d := reshape_2_1 a in
  let b_2d := reshape_2_1 b in
  matrix_divide (a_2d^T *m b_2d) length_a.

Lemma np_linalg_norm_eq0 (n : nat) (a : 'rV[R]_n) :
  (np_linalg_norm a == 0) = (a == 0).
Proof.
have ge0 : 0 <= \sum_j a 0 j ^+ 2 by apply: sumr_ge0 => j _; exact: sqr_ge0.
rewrite /np_linalg_norm sqrtr_eq0 le_eqVlt (le_gtF ge0) orbF.
rewrite psumr_eq0; first by move=> j _; exact: sqr_ge0.
apply/allP/eqP=> [zero|a0 j _]; last by rewrite a0 mxE expr0n /= eqxx.
apply/rowP=> j; rewrite mxE.
by have := zero j (mem_index_enum j); rewrite /= sqrf_eq0 => /eqP.
Qed.

(** C8.  For a nonzero [a], the two cells compute the same projection: the
    matrix form is the 1-by-1 matrix whose entry is
    [np.sum(b * a) / norm(a)]. *)
Theorem proj_b_to_a_fancy_same (a b : 'rV[R]_2) :
  a != 0 ->
  exists p P,
    [/\ proj_b_to_a a b = Ok p,
        proj_b_to_a_fancy a b = Ok P
      & P 0 0 = p].
Proof.
rewrite -np_linalg_norm_eq0 /proj_b_to_a /proj_b_to_a_fancy.
rewrite /true_divide /matrix_divide => /negPf ->.
do 2![eexists]; split=> //; rewrite !mxE /np_sum; congr (_ / _).
by apply: eq_bigr => j _; rewrite !mxE mulrC.
Qed.

End Projection.

Section ProjectionDemo.

Local Open Scope ring_scope.

(** The vectors of the notebook, [a = [2, 7]] and [b = [3, 4]], over the
    real algebraic numbers. *)
Definition a_demo : 'rV[algR]_2 := \row_j (if j == 0 then 2 else 7).
Definition b_demo : 'rV[algR]_2 := \row_j (if j == 0 then 3 else 4).

Lemma proj_b_to_a_fancy_same_witness :
  exists p P,
    [/\ proj_b_to_a a_demo b_demo = Ok p,
        proj_b_to_a_fancy a_demo b_demo = Ok P
      & P 0 0 = p].
Proof.
apply: (@proj_b_to_a_fancy_same _ a_demo b_demo).
apply/eqP=> /rowP /(_ 0); rewrite !mxE /= => /eqP.
by rewrite (pnatr_eq0 _ 2).
Defined.

End ProjectionDemo.

End PCA.

(** ** IEEE doubles and NumPy's linear algebra on them

    The numbers of [ridge] and of the covariance cell are IEEE doubles,
    Rocq's primitive floats; the operations of NumPy are modelled with their
    rounding, one operation of the source at a time.  What the
    specification says in terms of real numbers is stated on the exact
    rational values of the doubles. *)

Module Doubles.

(** *** Rounding: facts from the specification of the format *)

Section Rounding.

Local Open Scope Z_scope.











End Rounding.

(** *** Arithmetic on doubles *)

Section Arithmetic.

Local Open Scope float_scope.

(** The product of two doubles does not depend on their order. *)
Lemma mulC (x y : float) : x * y = y * x.
Proof.
apply Prim2SF_inj; rewrite !mul_spec.
destruct (Prim2SF x) as [sx|sx| |sx mx ex], (Prim2SF y) as [sy|sy| |sy my ey];
  simpl; try reflexivity; try (rewrite Bool.xorb_comm; reflexivity).
rewrite Bool.xorb_comm Pos.mul_comm Z.add_comm; reflexivity.
Qed.




(** The sign bit of a double is clear: the double is [nan], or it is not
    below zero and is not [-0.0]. *)
Definition SF_sign_clear (r : spec_float) : bool :=
  match r with
  | S754_zero s | S754_infinity s | S754_finite s _ _ => ~~ s
  | S754_nan => true
  end.

Definition sign_clear (x : float) : bool := SF_sign_clear (Prim2SF x).

Lemma binary_round_aux_sign (m e : Z) (l : location) :
  SF_sign_clear (binary_round_aux prec emax false m e l).
Proof.
unfold binary_round_aux.
destruct (shr_fexp prec emax m e l) as [mrs1 e1].
destruct (shr_fexp prec emax _ e1 loc_Exact) as [mrs2 e2].
destruct (shr_m mrs2); try reflexivity.
destruct (Z.leb _ _); reflexivity.
Qed.

Lemma binary_normalize_sign (m e : Z) :
  Z.le 0 m -> SF_sign_clear (binary_normalize prec emax m e false).
Proof.
destruct m as [|p|p]; intros m0; try reflexivity; try lia.
unfold binary_normalize, binary_round.
destruct (shl_align _ _ _) as [mz ez]; apply binary_round_aux_sign.
Qed.

Lemma sign_clear_ltb0 (x : float) : sign_clear x -> (x <? 0) = false.
Proof.
unfold sign_clear; rewrite ltb_spec.
change (Prim2SF 0) with (S754_zero false).
destruct (Prim2SF x) as [[|]|[|]| |[|] m e]; try reflexivity; discriminate.
Qed.

Lemma sign_clear_mul_self (x : float) : sign_clear (x * x).
Proof.
unfold sign_clear; rewrite mul_spec; unfold SF64mul.
destruct (Prim2SF x) as [s|s| |s m e]; simpl; try reflexivity;
  rewrite Bool.xorb_nilpotent; try reflexivity.
apply binary_round_aux_sign.
Qed.

Lemma sign_clear_add (x y : float) :
  sign_clear x -> sign_clear y -> sign_clear (x + y).
Proof.
unfold sign_clear; rewrite add_spec; unfold SF64add.
destruct (Prim2SF x) as [[|]|[|]| |[|] mx ex],
         (Prim2SF y) as [[|]|[|]| |[|] my ey]; try reflexivity; try discriminate.
intros _ _; apply binary_normalize_sign; simpl; lia.
Qed.

Lemma sign_clear_div (x d : float) :
  sign_clear x -> sign_clear d -> sign_clear (x / d).
Proof.
unfold sign_clear; rewrite div_spec; unfold SF64div.
destruct (Prim2SF x) as [[|]|[|]| |[|] mx ex],
         (Prim2SF d) as [[|]|[|]| |[|] md ed]; try reflexivity; try discriminate.
intros _ _; unfold SFdiv.
destruct (SFdiv_core_binary _ _ _ _ _ _) as [[mz ez] lz].
apply binary_round_aux_sign.
Qed.

Lemma sign_clear_of_uint63 (n : PrimInt63.int) : sign_clear (PrimFloat.of_uint63 n).
Proof.
unfold sign_clear; rewrite of_uint63_spec; apply binary_normalize_sign.
apply Uint63.to_Z_bounded.
Qed.

End Arithmetic.


(** *** NumPy arrays of doubles

    A one-dimensional array is the list of its entries, a two-dimensional
    array with at least one row and one column the list of its rows. *)

Definition vector : Type := seq float.
Definition matrix : Type := seq (seq float).

Definition nrows (A : matrix) : nat := size A.
Definition ncols (A : matrix) : nat := size (head [::] A).

Definition rectangular (A : matrix) : bool :=
  all (fun r => size r == ncols A) A.

Definition column (A : matrix) (j : nat) : vector :=
  [seq nth 0%float r j | r <- A].

(** [A.T] *)
Definition transpose (A : matrix) : matrix :=
  [seq column A j | j <- iota 0 (ncols A)].

(** The inner loop of [dot], as NumPy's own [DOUBLE_dot] and the reference
    BLAS write it: [tmp = 0.0], then [tmp += a[i] * b[i]] from the first
    index to the last. *)
Definition inner (u v : vector) : float :=
  foldl (fun tmp ab => (tmp + ab.1 * ab.2)%float) 0%float (zip u v).

(** [A.dot(B)] for two-dimensional [A] and [B]: [ValueError] when the
    shapes are not aligned. *)
Definition dot (A B : matrix) : result matrix :=
  if ncols A == nrows B
  then Ok [seq [seq inner r c | c <- transpose B] | r <- A]
  else Raise ValueError.

(** [A.dot(v)] for a two-dimensional [A] and a one-dimensional [v]. *)
Definition dot_vec (A : matrix) (v : vector) : result vector :=
  if ncols A == size v then Ok [seq inner r v | r <- A]
  else Raise ValueError.

(** [np.eye(n)] *)
Definition np_eye (n : nat) : matrix :=
  [seq [seq (if i == j then 1%float else 0%float) | j <- iota 0 n]
  | i <- iota 0 n].

(** [a * A] for a scalar [a], and [A + B] for two arrays of one shape. *)
Definition multiply (a : float) (A : matrix) : matrix :=
  [seq [seq (a * x)%float | x <- r] | r <- A].

Definition add (A B : matrix) : matrix :=
  [seq [seq (ab.1 + ab.2)%float | ab <- zip rs.1 rs.2] | rs <- zip A B].

(** [A / d] for a scalar [d]: IEEE division, so a zero [d] gives [inf] or
    [nan] and raises nothing. *)
Definition divide (A : matrix) (d : float) : matrix :=
  [seq [seq (x / d)%float | x <- r] | r <- A].

(** The conversion of a Python [int] to a double, exact below [2^53]. *)
Definition float_of_int (z : Z) : float :=
  if Z.ltb z 0 then (- PrimFloat.of_uint63 (Uint63Axioms.of_Z (Z.opp z)))%float
  else PrimFloat.of_uint63 (Uint63Axioms.of_Z z).

(** *** [np.linalg.inv]

    NumPy hands the matrix and the identity to LAPACK's [dgesv]: an LU
    factorisation with partial pivoting ([dgetrf]), then the two triangular
    solves of [dgetrs].  The model follows the reference implementation
    operation by operation, on the rows of the matrix extended by the rows
    of the right-hand side. *)

(** [idamax]: the first position of an entry of largest magnitude. *)
Fixpoint idamax_from (dmax : float) (imax i : nat) (xs : vector) : nat :=
  match xs with
  | [::] => imax
  | x :: xs' =>
      if (dmax <? PrimFloat.abs x)%float
      then idamax_from (PrimFloat.abs x) i i.+1 xs'
      else idamax_from dmax imax i.+1 xs'
  end.

Definition idamax (xs : vector) : nat :=
  match xs with
  | [::] => 0
  | x :: xs' => idamax_from (PrimFloat.abs x) 0 1 xs'
  end.

(** The row interchange of step [j]: the first remaining row and the pivot
    row change places. *)
Definition swap_first {T : Type} (p : nat) (rows : seq T) : seq T :=
  match rows, p with
  | r0 :: rest, p'.+1 => nth r0 rest p' :: set_nth r0 rest p' r0
  | _, _ => rows
  end.

(** The safe minimum of [dlamch('S')]: pivots of at least this magnitude
    divide through their reciprocal. *)
Definition sfmin : float := 0x1p-1022%float.

Definition multiplier (pivot x : float) : float :=
  if (sfmin <=? PrimFloat.abs pivot)%float then (x * (1 / pivot))%float
  else (x / pivot)%float.

(** Step [j] on one row below the pivot row [(a, b)]: the multiplier is
    stored at column [j], the entries to its right and the right-hand side
    lose the multiple of the pivot row. *)
Definition eliminate (j : nat) (pivot_row row : vector * vector)
    : vector * vector :=
  let l := multiplier (nth 0%float pivot_row.1 j) (nth 0%float row.1 j) in
  ([seq (if k < j then nth 0%float row.1 k
         else if k == j then l
         else nth 0%float row.1 k - l * nth 0%float pivot_row.1 k)%float
   | k <- iota 0 (size row.1)],
   [seq (bb.1 - bb.2 * l)%float | bb <- zip row.2 pivot_row.2]).

(** [dgetrf] and the forward solve, over the [n] rows that remain at step
    [j]: an exactly zero pivot is the failure [np.linalg.inv] reports as
    [LinAlgError]. *)
Fixpoint getrf (n j : nat) (rows : seq (vector * vector))
    : result (seq (vector * vector)) :=
  match n with
  | 0 => Ok [::]
  | n'.+1 =>
      match swap_first (idamax [seq nth 0%float r.1 j | r <- rows]) rows with
      | [::] => Ok [::]
      | pivot_row :: rest =>
          if (nth 0%float pivot_row.1 j =? 0)%float then Raise LinAlgError
          else
            tail <- getrf n' j.+1 [seq eliminate j pivot_row r | r <- rest] ;;
            Ok (pivot_row :: tail)
      end
  end.

(** The backward solve with the upper triangle, from the last row up. *)
Fixpoint trsm (j : nat) (rows : seq (vector * vector)) : matrix :=
  match rows with
  | [::] => [::]
  | (a, b) :: rest =>
      let xs := trsm j.+1 rest in
      let b' :=
        foldl (fun acc xu => [seq (bx.1 - bx.2 * xu.2)%float
                             | bx <- zip acc xu.1])
              b (rev (zip xs (drop j.+1 a))) in
      [seq (v / nth 0%float a j)%float | v <- b'] :: xs
  end.

Definition is_square (A : matrix) : bool :=
  all (fun r => size r == nrows A) A.

Definition np_linalg_inv (A : matrix) : result matrix :=
  if is_square A then
    rows <- getrf (nrows A) 0 (zip A (np_eye (nrows A))) ;;
    Ok (trsm 0 rows)
  else Raise LinAlgError.


(** *** Facts about the array operations *)



Lemma foldl_sign_clear (u : vector) (tmp : float) :
  sign_clear tmp ->
  sign_clear (foldl (fun tmp ab => (tmp + ab.1 * ab.2)%float) tmp (zip u u)).
Proof.
elim: u tmp => [|x u IH] tmp //= tmp0; apply: IH.
by apply: sign_clear_add => //; apply: sign_clear_mul_self.
Qed.

(** A sum of squares is never below zero. *)
Lemma inner_self_sign_clear (u : vector) : sign_clear (inner u u).
Proof. exact: foldl_sign_clear. Qed.

Lemma foldl_innerC (u v : vector) (tmp : float) :
  foldl (fun tmp ab => (tmp + ab.1 * ab.2)%float) tmp (zip u v)
  = foldl (fun tmp ab => (tmp + ab.1 * ab.2)%float) tmp (zip v u).
Proof.
elim: u v tmp => [|x u IH] [|y v] tmp //=.
by rewrite (mulC x y) IH.
Qed.

(** The inner product does not depend on the order of its arguments. *)
Lemma innerC (u v : vector) : inner u v = inner v u.
Proof. exact: foldl_innerC. Qed.

Lemma size_transpose (A : matrix) : size (transpose A) = ncols A.
Proof. by rewrite /transpose size_map size_iota. Qed.

Lemma all_total (T : Type) (P : pred T) (s : seq T) :
  (forall x, P x) -> all P s.
Proof. by move=> Px; elim: s => //= x s ->; rewrite Px. Qed.

Lemma all_size_transpose (A : matrix) :
  all (fun c => size c == nrows A) (transpose A).
Proof.
by rewrite /transpose all_map; apply: all_total => j /=; rewrite size_map.
Qed.

Lemma ncols_transpose (A : matrix) :
  0 < ncols A -> ncols (transpose A) = nrows A.
Proof.
rewrite /transpose {2}/ncols; case: (ncols A) => [|n] //= _.
by rewrite /column size_map.
Qed.

Lemma ncols_all (A : matrix) (n : nat) :
  0 < size A -> all (fun r => size r == n) A -> ncols A = n.
Proof. by case: A => [|r A] //= _ /andP [/eqP]. Qed.

(** [X.T.dot(X)]: the matrix of the inner products of the columns. *)
Definition gram (X : matrix) : matrix :=
  [seq [seq inner r c | c <- transpose X] | r <- transpose X].

Lemma dot_transpose (X : matrix) :
  dot (transpose X) X
  = if ncols (transpose X) == nrows X then Ok (gram X) else Raise ValueError.
Proof. by []. Qed.

Lemma dot_transpose_Ok (X : matrix) :
  0 < ncols X -> dot (transpose X) X = Ok (gram X).
Proof. by move=> n0; rewrite dot_transpose ncols_transpose // eqxx. Qed.

Lemma size_gram (X : matrix) : size (gram X) = ncols X.
Proof. by rewrite /gram size_map size_transpose. Qed.

Lemma all_size_gram (X : matrix) :
  all (fun r => size r == ncols X) (gram X).
Proof.
rewrite /gram all_map; apply: all_total => c /=.
by rewrite size_map size_transpose.
Qed.





(** *** Facts about the factorisation *)

Lemma idamax_from_lt (dmax : float) (imax i : nat) (xs : vector) :
  imax < i -> idamax_from dmax imax i xs < i + size xs.
Proof.
elim: xs dmax imax i => [|x xs IH] dmax imax i lt_i /=.
  by rewrite addn0.
rewrite addnS -addSn; case: ifP => _; apply: IH => //.
exact: ltnW.
Qed.

Lemma idamax_lt (xs : vector) : 0 < size xs -> idamax xs < size xs.
Proof.
by case: xs => [|x xs] //= _; rewrite -add1n; apply: idamax_from_lt.
Qed.

Lemma all_set_nth (T : Type) (P : pred T) (x0 x : T) (s : seq T) (p : nat) :
  p < size s -> P x -> all P s -> all P (set_nth x0 s p x).
Proof.
elim: s p => [|y s IH] [|p] //= lt_p Px /andP [Py Ps].
  by rewrite Px.
by rewrite Py IH.
Qed.

Lemma all_nth_in (T : Type) (P : pred T) (x0 : T) (s : seq T) (p : nat) :
  p < size s -> all P s -> P (nth x0 s p).
Proof. by move=> lt_p /all_nthP; apply. Qed.

Lemma size_swap_first (T : Type) (p : nat) (rows : seq T) :
  p < size rows -> size (swap_first p rows) = size rows.
Proof.
case: rows p => [|r0 rest] [|p] //= lt_p.
by rewrite size_set_nth; congr _.+1; apply/maxn_idPr.
Qed.

Lemma all_swap_first (T : Type) (P : pred T) (p : nat) (rows : seq T) :
  p < size rows -> all P rows -> all P (swap_first p rows).
Proof.
case: rows p => [|r0 rest] [|p] //= lt_p /andP [P0 Prest].
by rewrite all_nth_in // all_set_nth.
Qed.

Lemma size_eliminate_rhs (j : nat) (pivot_row row : vector * vector)
    (k : nat) :
  size pivot_row.2 = k -> size row.2 = k -> size (eliminate j pivot_row row).2 = k.
Proof. by move=> sp sr; rewrite /= size_map size_zip sp sr minnn. Qed.


Lemma getrf_shape (n j k : nat) (rows rows' : seq (vector * vector)) :
  size rows = n -> all (fun r => size r.2 == k) rows ->
  getrf n j rows = Ok rows' ->
  size rows' = n /\ all (fun r => size r.2 == k) rows'.
Proof.
elim: n j rows rows' => [|n IH] j rows rows' /=.
  by move=> _ _ [<-].
move=> sz_rows rhs.
set p := idamax _.
have lt_p : p < size rows.
  have := @idamax_lt [seq nth 0%float r.1 j | r <- rows].
  by rewrite size_map sz_rows; apply.
have := size_swap_first lt_p; have := all_swap_first lt_p rhs.
case: (swap_first p rows) => [|pivot_row rest] /=.
  by rewrite sz_rows.
move=> /andP [/eqP rhs_p rhs_rest]; rewrite sz_rows => -[sz_rest].
case: ifP => _ //.
case run: (getrf _ _ _) => [tail|e] //= -[<-] /=.
have [||-> ->] := IH _ _ _ _ _ run; first by rewrite size_map.
  rewrite all_map; apply: sub_all rhs_rest => row /= /eqP rhs_row.
  by rewrite size_map size_zip rhs_row rhs_p minnn.
by rewrite rhs_p eqxx.
Qed.

Lemma size_trsm (j : nat) (rows : seq (vector * vector)) :
  size (trsm j rows) = size rows.
Proof. by elim: rows j => [|[a b] rows IH] j //=; rewrite IH. Qed.

Lemma all_size_trsm (j k : nat) (rows : seq (vector * vector)) :
  all (fun r => size r.2 == k) rows ->
  all (fun x => size x == k) (trsm j rows).
Proof.
elim: rows j => [|[a b] rows IH] j //= /andP [/eqP sz_b rhs]; apply/andP.
split; last exact: IH.
rewrite size_map; move: (IH j.+1 rhs); move: (trsm _ _) => xs sz_xs.
have: all (fun xu : vector * float => size xu.1 == k)
          (rev (zip xs (drop j.+1 a))).
  rewrite all_rev; elim: xs (drop _ _) sz_xs => [|x xs IHx] [|u us] //=.
  by move=> /andP [-> /IHx ->].
elim: (rev _) b sz_b => [|[x u] l IHl] b sz_b /=; first by rewrite sz_b.
by move=> /andP [/eqP sz_x sz_l]; apply: IHl => //; rewrite size_map size_zip sz_b sz_x minnn.
Qed.

Lemma size_np_eye (n : nat) : size (np_eye n) = n.
Proof. by rewrite size_map size_iota. Qed.

Lemma all_size_np_eye (n : nat) : all (fun r => size r == n) (np_eye n).
Proof.
by rewrite /np_eye all_map; apply: all_total => i /=; rewrite size_map size_iota.
Qed.

Lemma all_rhs_zip (A B : matrix) (k : nat) :
  all (fun r => size r == k) B ->
  all (fun r : vector * vector => size r.2 == k) (zip A B).
Proof.
elim: A B => [|r A IH] [|b B] //=.
by move=> /andP [-> /IH ->].
Qed.



Lemma np_linalg_inv_shape (A B : matrix) :
  np_linalg_inv A = Ok B ->
  size B = nrows A /\ all (fun r => size r == nrows A) B.
Proof.
rewrite /np_linalg_inv; case: ifP => // sq.
case run: (getrf _ _ _) => [rows|e] //= -[<-].
have sz_zip : size (zip A (np_eye (nrows A))) = nrows A.
  by rewrite size_zip size_np_eye minnn.
have rhs : all (fun r : vector * vector => size r.2 == nrows A)
               (zip A (np_eye (nrows A))).
  exact/all_rhs_zip/all_size_np_eye.
have [sz_rows rhs_rows] := getrf_shape sz_zip rhs run.
by rewrite size_trsm sz_rows; split=> //; apply: all_size_trsm.
Qed.

(** *** The exact value of a double

    A finite double is a rational number; the real-number statements of
    linear algebra are checked on these values, in exact rational
    arithmetic. *)

Notation Q := QArith_base.Q.
Notation Qplus := QArith_base.Qplus.
Notation Qmult := QArith_base.Qmult.

Definition Q0 : Q := QArith_base.Qmake 0 1.

Definition exact_value (x : float) : Q :=
  match Prim2SF x with
  | S754_finite s m e =>
      let n := if s then Zneg m else Zpos m in
      match e with
      | Zneg p => QArith_base.Qmake n (Pos.pow 2 p)
      | _ => QArith_base.Qmake (Z.mul n (Z.pow 2 e)) 1
      end
  | _ => Q0
  end.

Definition Qsum (s : seq Q) : Q := foldr Qplus Q0 s.



Definition exact_values (v : vector) : seq Q := [seq exact_value x | x <- v].

Definition Qinner (u v : seq Q) : Q :=
  Qsum [seq Qmult p.1 p.2 | p <- zip u v].

(** [v^T C v] on the exact values. *)
Definition quadratic_form (C : matrix) (v : vector) : Q :=
  Qinner (exact_values v)
         [seq Qinner (exact_values r) (exact_values v) | r <- C].

End Doubles.

(** ** [ridge], on doubles *)

Module Ridge.

Import Doubles.

(** [[
def ridge(X, Y, a=0):
    b = np.linalg.inv(X.T.dot(X) + a * np.eye(X.shape[1])).dot(X.T.dot(Y))
    return b
]]
    for a two-dimensional [X] and a one-dimensional [Y], as the notebook
    calls it.  Python evaluates the inverse before the argument
    [X.T.dot(Y)]. *)
Definition ridge (X : matrix) (Y : vector) (a : float) : result vector :=
  XtX <- dot (transpose X) X ;;
  inverse <- np_linalg_inv (add XtX (multiply a (np_eye (ncols X)))) ;;
  XtY <- dot_vec (transpose X) Y ;;
  b <- dot_vec inverse XtY ;;
  Ok b.

(** [B_est = ridge(Xreg, y, a=0)]: a bare call, nothing catches what it
    raises. *)
Definition B_est (Xreg : matrix) (y : vector) : result vector :=
  ridge Xreg y 0%float.

(** The matrix handed to [np.linalg.inv]. *)
Definition regularized (X : matrix) (a : float) : matrix :=
  add (gram X) (multiply a (np_eye (ncols X))).







Lemma size_regularized (X : matrix) (a : float) :
  size (regularized X a) = ncols X.
Proof.
rewrite /regularized /add size_map size_zip size_gram /multiply size_map.
by rewrite size_np_eye minnn.
Qed.




(** What [ridge] does once [X] has a column. *)
Lemma ridge_value (X : matrix) (Y : vector) (a : float) :
  0 < ncols X ->
  ridge X Y a
  = (inverse <- np_linalg_inv (regularized X a) ;;
     if nrows X == size Y
     then Ok [seq inner r [seq inner c Y | c <- transpose X] | r <- inverse]
     else Raise ValueError).
Proof.
move=> n0; rewrite /ridge dot_transpose_Ok //= -/(regularized X a).
case inv: (np_linalg_inv _) => [inverse|e] //=.
rewrite /dot_vec ncols_transpose //; case: ifP => //= _.
have [sz_inv rows_inv] := np_linalg_inv_shape inv.
rewrite size_map size_transpose.
suff -> : ncols inverse = ncols X by rewrite eqxx.
move: sz_inv rows_inv {inv}; rewrite /nrows size_regularized {1}/ncols.
case: inverse => [|r inverse] /=; first by move=> sz; move: n0; rewrite /ncols -sz.
by move=> _ /andP [/eqP].
Qed.






(** X29.  With one regressor the inverse is a reciprocal: [ridge] fails
    exactly when the computed sum of squares plus [a] is zero, and otherwise
    returns the product of the reciprocal with [X.T.dot(Y)]. *)
Theorem ridge_one_regressor (X : matrix) (Y : vector) (a : float) :
  ncols X = 1 ->
  let c := column X 0 in
  let g := (inner c c + a * 1)%float in
  ridge X Y a
  = if (g =? 0)%float then Raise LinAlgError
    else if nrows X == size Y
         then Ok [:: inner [:: (1 / g)%float] [:: inner c Y]]
         else Raise ValueError.
Proof.
move=> one c g; rewrite ridge_value ?one //.
have -> : regularized X a = [:: [:: g]].
  by rewrite /regularized /gram /transpose one.
rewrite /np_linalg_inv /=.
case: (PrimFloat.eqb g 0%float) => //=.
by rewrite /transpose one.
Qed.

Lemma ridge_one_regressor_witness :
  ridge [:: [:: 3%float]; [:: 4%float]] [:: 5%float; 10%float] 1%float
  = Ok [:: 2.1153846153846154%float].
Proof.
exact: (@ridge_one_regressor [:: [:: 3%float]; [:: 4%float]]
          [:: 5%float; 10%float] 1%float (erefl _)).
Defined.

End Ridge.

(** ** The covariance matrix of the PCA notebook, on doubles *)

Module Covariance.

Import Doubles.

(** [len(y)] *)
Definition len (y : matrix) : Z := Z.of_nat (size y).

(** [y.mean(0)]: the rows are added one after the other, from the first
    on, and the sums divided by their number. *)
Definition add_rows (acc r : vector) : vector :=
  [seq (ab.1 + ab.2)%float | ab <- zip acc r].

Definition mean0 (y : matrix) : vector :=
  match y with
  | [::] => [::]
  | r0 :: rest =>
      [seq (s / float_of_int (len y))%float | s <- foldl add_rows r0 rest]
  end.

(** [y - mu], the row [mu] broadcast over the rows of [y]. *)
Definition subtract (y : matrix) (mu : vector) : matrix :=
  [seq [seq (ab.1 - ab.2)%float | ab <- zip r mu] | r <- y].

(** [[
y_demean = y - y.mean(0)
ycov = y_demean.T.dot(y_demean)
ycov /= (len(y)-1)
]] *)
Definition ycov (y : matrix) : result matrix :=
  let y_demean := subtract y (mean0 y) in
  ycov <- dot (transpose y_demean) y_demean ;;
  Ok (divide ycov (float_of_int (Z.sub (len y) 1))).

(** [v.dot(C).dot(v)] on doubles. *)
Definition quadratic_form_doubles (C : matrix) (v : vector) : result float :=
  Cv <- dot_vec C v ;;
  if size v == size Cv then Ok (inner v Cv) else Raise ValueError.

(** A table of a symmetric function of the rows of a list is its own
    transpose. *)
Lemma transpose_table (T : seq vector) (f : vector -> vector -> float) :
  (forall u v, f u v = f v u) ->
  transpose [seq [seq f r c | c <- T] | r <- T]
  = [seq [seq f r c | c <- T] | r <- T].
Proof.
move=> fC; set M := [seq _ | r <- T].
have sz_M : size M = size T by rewrite size_map.
have cols : ncols M = size T.
  by rewrite /ncols /M; case: (T) => [|r T'] //=; rewrite size_map.
rewrite /transpose cols -sz_M -[RHS](mkseq_nth [::]) /mkseq.
apply/eq_in_map => j; rewrite mem_iota /= add0n sz_M => lt_j.
rewrite /column /M -map_comp (nth_map [::]) //.
apply: eq_map => r /=.
by rewrite (nth_map [::]) // fC.
Qed.

Lemma size_foldl_add_rows (n : nat) (rows : matrix) (acc : vector) :
  size acc = n -> all (fun r => size r == n) rows ->
  size (foldl add_rows acc rows) = n.
Proof.
elim: rows acc => [|r rows IH] acc //= sz_acc /andP [/eqP sz_r sz_rows].
by apply: IH => //; rewrite size_map size_zip sz_acc sz_r minnn.
Qed.

Lemma size_mean0 (y : matrix) : rectangular y -> size (mean0 y) = ncols y.
Proof.
case: y => [|r0 rest] //=; rewrite /rectangular /ncols /= eqxx /= => sz.
by rewrite size_map (@size_foldl_add_rows (size r0)).
Qed.

Lemma ncols_subtract (y : matrix) (mu : vector) :
  size mu = ncols y -> ncols (subtract y mu) = ncols y.
Proof.
rewrite /ncols; case: y => [|r0 rest] //= sz.
by rewrite size_map size_zip sz minnn.
Qed.

(** What the cell computes, for an array with at least one column. *)
Lemma ycov_value (y : matrix) :
  rectangular y -> 0 < ncols y ->
  ycov y = Ok (divide (gram (subtract y (mean0 y)))
                      (float_of_int (Z.sub (len y) 1))).
Proof.
move=> rect n0; rewrite /ycov dot_transpose_Ok //.
by rewrite ncols_subtract // size_mean0.
Qed.

(** C10, as the specification states it, fails on doubles.  For
    [y = [[0, 0], [0.6, 1.4]]] the cell computes the entries [0.18],
    [0.42], [0.42] and [0.97999999999999987]; at [v = (7, -3)] the
    quadratic form [v^T ycov v] of these four doubles is negative, in
    exact rational arithmetic as on doubles. *)
Lemma ycov_not_positive_semidefinite :
  let y := [:: [:: 0%float; 0%float]; [:: 0.6%float; 1.4%float]] in
  let v := [:: 7%float; (-3)%float] in
  let C := [:: [:: 0.18%float; 0.42%float];
               [:: 0.42%float; 0.97999999999999987%float]] in
  [/\ ycov y = Ok C,
      QArith_base.Qlt (quadratic_form C v) Q0
    & exists2 q, quadratic_form_doubles C v = Ok q & (q <? 0)%float].
Proof. by split; [vm_compute..|eexists; vm_compute]. Qed.

(** C10, amended.  For an array [y] with at least one column, the cell
    returns a square array with one row per column of [y] that is its own
    transpose: the entries [(i, j)] and [(j, i)] are the same double.  Of
    positive semidefiniteness the doubles keep this much: no diagonal entry
    is below zero. *)
Theorem ycov_symmetric (y : matrix) :
  rectangular y -> 0 < ncols y ->
  exists C,
    [/\ ycov y = Ok C,
        size C = ncols y /\ all (fun r => size r == ncols y) C,
        transpose C = C,
        forall i j, i < ncols y -> j < ncols y ->
          nth 0%float (nth [::] C i) j = nth 0%float (nth [::] C j) i
      & forall i, i < ncols y ->
          (nth 0%float (nth [::] C i) i <? 0)%float = false].
Proof.
move=> rect n0; rewrite ycov_value //.
set D := subtract _ _; set d := float_of_int _.
have sz_D : ncols D = ncols y by rewrite ncols_subtract // size_mean0.
have table : divide (gram D) d
             = [seq [seq (inner r c / d)%float | c <- transpose D]
               | r <- transpose D].
  rewrite /divide /gram -map_comp; apply: eq_map => r /=.
  by rewrite -map_comp.
have sym : transpose (divide (gram D) d) = divide (gram D) d.
  rewrite table.
  apply: (@transpose_table _ (fun r c => (inner r c / d)%float)) => u v.
  by rewrite innerC.
have sz_C : size (divide (gram D) d) = ncols y.
  by rewrite size_map size_gram.
have rows_C : all (fun r => size r == ncols y) (divide (gram D) d).
  rewrite /divide all_map; apply: sub_all (all_size_gram D) => r /=.
  by rewrite size_map sz_D.
have d0 : sign_clear d.
  have /ltP rows0 : 0 < size y by move: n0; rewrite /ncols; case: (y).
  rewrite /d /float_of_int /len; case: ifP => [/Z.ltb_lt|_]; first by lia.
  exact: sign_clear_of_uint63.
exists (divide (gram D) d); split=> // [i j lt_i lt_j|i lt_i].
  rewrite -{2}sym /transpose (ncols_all _ rows_C) ?sz_C //.
  rewrite (nth_map 0) ?size_iota // nth_iota // add0n.
  by rewrite /column (nth_map [::]) ?sz_C.
apply: sign_clear_ltb0; rewrite table.
rewrite (nth_map [::]) ?size_transpose ?sz_D //.
rewrite (nth_map [::]) ?size_transpose ?sz_D //.
by apply: sign_clear_div => //; apply: inner_self_sign_clear.
Qed.

Lemma ycov_symmetric_witness :
  exists C,
    [/\ ycov [:: [:: 0%float; 0%float]; [:: 0.6%float; 1.4%float]] = Ok C,
        size C = 2 /\ all (fun r => size r == 2) C,
        transpose C = C,
        forall i j, i < 2 -> j < 2 ->
          nth 0%float (nth [::] C i) j = nth 0%float (nth [::] C j) i
      & forall i, i < 2 ->
          (nth 0%float (nth [::] C i) i <? 0)%float = false].
Proof.
by apply: (@ycov_symmetric
             [:: [:: 0%float; 0%float]; [:: 0.6%float; 1.4%float]]).
Defined.

End Covariance.

(** ** The helpers and the conversion cell as Python programs

    To tell what a helper or a cell reads and writes, its text is kept as a
    syntax tree and run by an interpreter over the state a notebook kernel
    holds: the global namespace and the state of NumPy's random generator.
    The interpreter follows Python's order of evaluation.  Arithmetic on
    scalars and one-dimensional arrays, and the NumPy functions without a
    model in this development ([np.sin] among them), are parameters: the
    results below hold whatever they compute from their operands.  Warnings
    are not modelled. *)

Module Kernel.

Import Labeler Doubles.

Local Open Scope string_scope.

(** *** Syntax *)

Inductive binop : Type := Add | Sub | Mul | Div | Pow.

Inductive expr : Type :=
  | Name (id : string)
  | IntLit (n : Z)
  | FloatLit (x : float)
  | StrLit (s : string)
  | Tuple (e1 e2 : expr)
  | Neg (e : expr)
  | BinOp (op : binop) (e1 e2 : expr)
  | Attr (e : expr) (attribute : string)
  | Subscript (e index : expr)
  | Call (f arg : expr).

Inductive stmt : Type :=
  | Assign (target : string) (e : expr)
  | SetItem (target : string) (index e : expr)
  | For (target1 target2 : string) (iter : expr) (body : stmt)
  | Seq (s1 s2 : stmt)
  | Return (e : expr).

(** The conversion cell of the labeler notebook:
    [[
feature_names = tag_dict['distance']
feature_labels = features['tag_specs']['distance']
n_images = len(feature_labels)
n_features = len(feature_names)
X = np.zeros((n_images, n_features))
for i, this_label in enumerate(feature_labels):
    j = feature_names.index(this_label)
    X[i, j] = 1.0
]] *)
Definition loop_body : stmt :=
  Seq (Assign "j"
         (Call (Attr (Name "feature_names") "index") (Name "this_label")))
      (SetItem "X" (Tuple (Name "i") (Name "j")) (FloatLit 1)).

Definition conversion_loop : stmt :=
  For "i" "this_label" (Call (Name "enumerate") (Name "feature_labels"))
    loop_body.

Definition conversion_cell : stmt :=
  Seq (Assign "feature_names" (Subscript (Name "tag_dict") (StrLit "distance")))
 (Seq (Assign "feature_labels"
         (Subscript (Subscript (Name "features") (StrLit "tag_specs"))
            (StrLit "distance")))
 (Seq (Assign "n_images" (Call (Name "len") (Name "feature_labels")))
 (Seq (Assign "n_features" (Call (Name "len") (Name "feature_names")))
 (Seq (Assign "X"
         (Call (Attr (Name "np") "zeros")
            (Tuple (Name "n_images") (Name "n_features"))))
      conversion_loop)))).

(** *** Values *)

Inductive value : Type :=
  | VNone
  | VBool (b : bool)
  | VInt (n : Z)
  | VFloat (x : float)
  | VStr (s : string)
  | VList (items : seq value)
  | VDict (members : seq (string * value))
  | VArray1 (a : vector)
  | VArray2 (A : matrix)
  | VModule (name : string)
  | VBuiltin (name : string)
  | VRandom (name : string)
  | VMethod (self : value) (name : string).

(** What [json.load] returns, as a value. *)
Fixpoint of_json (j : json) : value :=
  match j with
  | JNull => VNone
  | JBool b => VBool b
  | JNumber n => VInt n
  | JString s => VStr s
  | JArray items => VList [seq of_json i | i <- items]
  | JObject members =>
      VDict [seq (let: (k, v) := kv in (k, of_json v)) | kv <- members]
  end.

(** A list of strings and a dictionary of such lists, as the notebook
    cells build them. *)
Definition of_strings (l : seq string) : value := VList [seq VStr s | s <- l].

Definition of_tag_dict (d : dict (seq string)) : value :=
  VDict [seq (kv.1, of_strings kv.2) | kv <- d].

(** A function definition: its parameters, the defaults of the last ones,
    its body. *)
Record def : Type := Def {
  params : seq string;
  defaults : seq (string * value);
  body : stmt
}.

(** [[
def gauss(x, mu, sigma, amp=1):
    return amp * np.e**(-(x-mu)**2 / (2*sigma))
]] *)
Definition gauss_def : def :=
  Def [:: "x"; "mu"; "sigma"; "amp"] [:: ("amp", VInt 1)]
    (Return
       (BinOp Mul (Name "amp")
          (BinOp Pow (Attr (Name "np") "e")
             (BinOp Div
                (Neg (BinOp Pow (BinOp Sub (Name "x") (Name "mu")) (IntLit 2)))
                (BinOp Mul (IntLit 2) (Name "sigma")))))).

(** [[
def sinx(x, freq, phase, amp=1):
    return np.sin(x * 2 * np.pi * freq + phase) * amp
]] *)
Definition sinx_def : def :=
  Def [:: "x"; "freq"; "phase"; "amp"] [:: ("amp", VInt 1)]
    (Return
       (BinOp Mul
          (Call (Attr (Name "np") "sin")
             (BinOp Add
                (BinOp Mul
                   (BinOp Mul (BinOp Mul (Name "x") (IntLit 2))
                      (Attr (Name "np") "pi"))
                   (Name "freq"))
                (Name "phase")))
          (Name "amp"))).

(** [[
def ridge(X, Y, a=0):
    b = np.linalg.inv(X.T.dot(X) + a * np.eye(X.shape[1])).dot(X.T.dot(Y))
    return b
]] *)
Definition ridge_def : def :=
  Def [:: "X"; "Y"; "a"] [:: ("a", VInt 0)]
    (Seq
       (Assign "b"
          (Call
             (Attr
                (Call (Attr (Attr (Name "np") "linalg") "inv")
                   (BinOp Add
                      (Call (Attr (Attr (Name "X") "T") "dot") (Name "X"))
                      (BinOp Mul (Name "a")
                         (Call (Attr (Name "np") "eye")
                            (Subscript (Attr (Name "X") "shape")
                               (IntLit 1))))))
                "dot")
             (Call (Attr (Attr (Name "X") "T") "dot") (Name "Y"))))
       (Return (Name "b"))).

(** What is raised: the exceptions of the library calls, and those of the
    interpreter itself. *)
Inductive raised : Type :=
  | Exn (e : exn)
  | NameError (id : string)
  | AttributeError (attribute : string).

Inductive res (A : Type) : Type :=
  | Val (a : A)
  | Err (e : raised).

Arguments Val {A} a.
Arguments Err {A} e.

Definition of_result {A B : Type} (f : A -> B) (r : result A) : res B :=
  match r with
  | Ok a => Val (f a)
  | Raise e => Err (Exn e)
  end.

(** *** Namespaces *)

Definition namespace : Type := seq (string * value).

Fixpoint find (ns : namespace) (id : string) : option value :=
  match ns with
  | [::] => None
  | (k, v) :: ns' => if k == id then Some v else find ns' id
  end.

(** A frame: the local names of a running function ([None] at the top
    level of a cell) and the global names of the notebook. *)
Record frame : Type := Frame {
  locals : option namespace;
  globals : namespace
}.

Definition builtins (id : string) : option value :=
  if id \in [:: "len"; "enumerate"] then Some (VBuiltin id) else None.

(** Name resolution: local, global, built-in. *)
Definition lookup (fr : frame) (id : string) : res value :=
  match (if locals fr is Some L then find L id else None) with
  | Some v => Val v
  | None =>
      match find (globals fr) id with
      | Some v => Val v
      | None =>
          if builtins id is Some v then Val v else Err (NameError id)
      end
  end.

(** [id = v]: a function binds a local name, a cell a global one. *)
Definition assign (fr : frame) (id : string) (v : value) : frame :=
  match locals fr with
  | Some L => Frame (Some ((id, v) :: L)) (globals fr)
  | None => Frame None ((id, v) :: globals fr)
  end.

(** [id[...] = ...] changes the object the name resolves to, local or
    global. *)
Definition store (fr : frame) (id : string) (v : value) : frame :=
  match locals fr with
  | Some L =>
      if find L id is Some _ then Frame (Some ((id, v) :: L)) (globals fr)
      else Frame (Some L) ((id, v) :: globals fr)
  | None => Frame None ((id, v) :: globals fr)
  end.

(** *** The primitives with a model *)

(** The functions of [np.random]. *)
Definition drawing_names : seq string :=
  [:: "rand"; "randn"; "uniform"; "normal"].

(** [v.attribute] *)
Definition attribute (v : value) (a : string) : res value :=
  match v with
  | VModule m =>
      if m == "numpy" then
        if a == "e" then Val (VFloat 2.718281828459045)
        else if a == "pi" then Val (VFloat 3.141592653589793)
        else if a \in [:: "linalg"; "random"] then Val (VModule (m ++ "." ++ a))
        else if a \in [:: "sin"; "eye"; "zeros"] then Val (VBuiltin (m ++ "." ++ a))
        else Err (AttributeError a)
      else if m == "numpy.linalg" then
        if a == "inv" then Val (VBuiltin (m ++ "." ++ a))
        else Err (AttributeError a)
      else if m == "numpy.random" then
        if a \in drawing_names then Val (VRandom a)
        else Err (AttributeError a)
      else Err (AttributeError a)
  | VArray2 A =>
      if a == "T" then Val (VArray2 (transpose A))
      else if a == "shape"
      then Val (VList [:: VInt (Z.of_nat (nrows A)); VInt (Z.of_nat (ncols A))])
      else if a == "dot" then Val (VMethod v a)
      else Err (AttributeError a)
  | VArray1 _ =>
      if a == "dot" then Val (VMethod v a) else Err (AttributeError a)
  | VList _ =>
      if a == "index" then Val (VMethod v a) else Err (AttributeError a)
  | _ => Err (AttributeError a)
  end.

(** An index of a sequence of length [n]: negative indices count from the
    end. *)
Definition position (n : nat) (i : Z) : option nat :=
  let i' := if Z.ltb i 0 then Z.add i (Z.of_nat n) else i in
  if Z.leb 0 i' && Z.ltb i' (Z.of_nat n) then Some (Z.to_nat i') else None.

(** [==] on the values a decoded label file holds. *)
Definition equal (v w : value) : bool :=
  match v, w with
  | VStr s, VStr t => s == t
  | VInt m, VInt n => Z.eqb m n
  | VBool a, VBool b => a == b
  | VNone, VNone => true
  | _, _ => false
  end.

Fixpoint index_of (l : seq value) (x : value) : result nat :=
  match l with
  | [::] => Raise ValueError
  | y :: l' => if equal y x then Ok 0 else (k <- index_of l' x ;; Ok k.+1)
  end.

Definition characters (s : string) : seq value :=
  [seq VStr (String c EmptyString) | c <- list_ascii_of_string s].

(** *** What the text of an expression or a statement shows

    The names an expression reads; whether each of its calls goes through
    an attribute that is no function of [np.random], or through one of the
    names [C]; the names a statement binds or stores to, those it binds on
    every normal run, and whether the names it reads are among [P] or bound
    by the statement itself beforehand. *)











Lemma lookup_assign (fr : frame) (id id' : string) (v : value) :
  lookup (assign fr id v) id' = if id == id' then Val v else lookup fr id'.
Proof.
by case: fr => [[L|] G]; rewrite /lookup /assign /=; case: (id == id').
Qed.

Lemma lookup_store (fr : frame) (id id' : string) (v : value) :
  lookup (store fr id v) id' = if id == id' then Val v else lookup fr id'.
Proof.
case: fr => [[L|] G]; rewrite /lookup /store /=; last by case: (id == id').
case in_L: (find L id) => [w|] /=; first by case: (id == id').
by case: eqP => [<-|_] //; rewrite in_L.
Qed.




Section Interpreter.

(** The state of the random generator, and what a function of [np.random]
    returns and leaves from it. *)
Variable generator : Type.
Variable draw : string -> value -> generator -> res value * generator.

(** The primitives without a model: functions of their operands. *)
Variable arithmetic : binop -> value -> value -> res value.
Variable negative : value -> res value.
Variable other_subscript : value -> value -> res value.
Variable other_builtin : string -> value -> res value.
Variable other_method : value -> string -> value -> res value.
Variable other_setitem : value -> value -> value -> res value.

(** [v[i]] *)
Definition subscript (v i : value) : res value :=
  match v, i with
  | VDict members, VStr k =>
      if find members k is Some x then Val x else Err (Exn (KeyError k))
  | VList items, VInt n =>
      if position (size items) n is Some p then Val (nth VNone items p)
      else Err (Exn IndexError)
  | VList _, VStr _ => Err (Exn TypeError)
  | VStr _, VStr _ => Err (Exn TypeError)
  | (VNone | VBool _ | VInt _ | VFloat _), _ => Err (Exn TypeError)
  | _, _ => other_subscript v i
  end.

(** [v[i] = x] *)
Definition setitem (v i x : value) : res value :=
  match v, i, x with
  | VArray2 A, VList [:: VInt r; VInt c], VFloat y =>
      if position (nrows A) r is Some r' then
        if position (size (nth [::] A r')) c is Some c'
        then of_result VArray2 (setitem2 A r' c' y)
        else Err (Exn IndexError)
      else Err (Exn IndexError)
  | _, _, _ => other_setitem v i x
  end.

(** [x op y] *)
Definition binary (op : binop) (v w : value) : res value :=
  match op, v, w with
  | Add, VArray2 A, VArray2 B => Val (VArray2 (add A B))
  | Mul, VFloat a, VArray2 B => Val (VArray2 (multiply a B))
  | Mul, VInt a, VArray2 B =>
      Val (VArray2 (multiply (float_of_int a) B))
  | _, _, _ => arithmetic op v w
  end.

Arguments binary : simpl never.

(** [f(x)] for a built-in function or a function of NumPy that draws
    nothing. *)
Definition builtin (name : string) (x : value) : res value :=
  if name == "len" then
    match x with
    | VList items => Val (VInt (Z.of_nat (size items)))
    | VDict members => Val (VInt (Z.of_nat (size members)))
    | VStr s => Val (VInt (Z.of_nat (String.length s)))
    | VArray1 a => Val (VInt (Z.of_nat (size a)))
    | VArray2 A => Val (VInt (Z.of_nat (nrows A)))
    | _ => Err (Exn TypeError)
    end
  else if name == "enumerate" then
    match x with
    | VList items =>
        Val (VList [seq VList [:: VInt (Z.of_nat ix.1); ix.2]
                   | ix <- zip (iota 0 (size items)) items])
    | VDict members =>
        Val (VList [seq VList [:: VInt (Z.of_nat ix.1); VStr ix.2.1]
                   | ix <- zip (iota 0 (size members)) members])
    | VStr s =>
        Val (VList [seq VList [:: VInt (Z.of_nat ix.1); ix.2]
                   | ix <- zip (iota 0 (String.length s)) (characters s)])
    | (VNone | VBool _ | VInt _ | VFloat _) => Err (Exn TypeError)
    | _ => other_builtin name x
    end
  else if name == "numpy.zeros" then
    match x with
    | VList [:: VInt m; VInt n] =>
        if Z.leb 0 m && Z.leb 0 n
        then Val (VArray2 (np_zeros (Z.to_nat m, Z.to_nat n)))
        else Err (Exn ValueError)
    | _ => other_builtin name x
    end
  else if name == "numpy.eye" then
    match x with
    | VInt n =>
        if Z.leb 0 n then Val (VArray2 (np_eye (Z.to_nat n)))
        else Err (Exn ValueError)
    | _ => other_builtin name x
    end
  else if name == "numpy.linalg.inv" then
    match x with
    | VArray2 A => of_result VArray2 (np_linalg_inv A)
    | _ => other_builtin name x
    end
  else other_builtin name x.

(** [self.name(x)] *)
Definition method (self : value) (name : string) (x : value) : res value :=
  match self, x with
  | VArray2 A, VArray2 B =>
      if name == "dot" then of_result VArray2 (dot A B)
      else other_method self name x
  | VArray2 A, VArray1 v =>
      if name == "dot" then of_result VArray1 (dot_vec A v)
      else other_method self name x
  | VList items, _ =>
      if name == "index"
      then of_result (fun k => VInt (Z.of_nat k)) (index_of items x)
      else other_method self name x
  | _, _ => other_method self name x
  end.

(** *** Evaluation *)

(** A computation reads and advances the generator. *)
Definition comp (A : Type) : Type := generator -> res A * generator.

Definition result_of {A : Type} (r : res A) : comp A := fun g => (r, g).

Definition and_then {A B : Type} (c : comp A) (k : A -> comp B) : comp B :=
  fun g =>
    match c g with
    | (Val a, g') => k a g'
    | (Err e, g') => (Err e, g')
    end.

(** The call [f(x)] of a value. *)
Definition apply (f x : value) : comp value :=
  match f with
  | VBuiltin name => result_of (builtin name x)
  | VRandom name => draw name x
  | VMethod self name => result_of (method self name x)
  | _ => result_of (Err (Exn TypeError))
  end.

(** Expressions, operands from left to right, the callee before its
    argument. *)
Fixpoint eval (fr : frame) (e : expr) : comp value :=
  match e with
  | Name id => result_of (lookup fr id)
  | IntLit n => result_of (Val (VInt n))
  | FloatLit x => result_of (Val (VFloat x))
  | StrLit s => result_of (Val (VStr s))
  | Tuple e1 e2 =>
      and_then (eval fr e1) (fun v1 =>
      and_then (eval fr e2) (fun v2 => result_of (Val (VList [:: v1; v2]))))
  | Neg e1 => and_then (eval fr e1) (fun v => result_of (negative v))
  | BinOp op e1 e2 =>
      and_then (eval fr e1) (fun v1 =>
      and_then (eval fr e2) (fun v2 => result_of (binary op v1 v2)))
  | Attr e1 a => and_then (eval fr e1) (fun v => result_of (attribute v a))
  | Subscript e1 e2 =>
      and_then (eval fr e1) (fun v1 =>
      and_then (eval fr e2) (fun v2 => result_of (subscript v1 v2)))
  | Call f x =>
      and_then (eval fr f) (fun fv =>
      and_then (eval fr x) (fun xv => apply fv xv))
  end.

(** *** Evaluation draws nothing unless the text calls [np.random] *)





(** How a statement ends. *)
Inductive status : Type :=
  | Normal
  | Returned (v : value)
  | Raised (e : raised).

(** The iterations of [for a, b in items: body]. *)
Fixpoint run_loop (run_body : frame -> generator -> status * frame * generator)
    (a b : string) (items : seq value) (fr : frame) (g : generator)
    : status * frame * generator :=
  match items with
  | [::] => (Normal, fr, g)
  | VList [:: va; vb] :: rest =>
      match run_body (assign (assign fr a va) b vb) g with
      | (Normal, fr', g') => run_loop run_body a b rest fr' g'
      | stop => stop
      end
  | _ :: _ => (Raised (Exn ValueError), fr, g)
  end.

(** Statements: the status, the frame and the generator they leave.  In
    [target[index] = e] Python evaluates [e], then the target, then the
    index. *)
Fixpoint exec (s : stmt) (fr : frame) (g : generator)
    : status * frame * generator :=
  match s with
  | Assign id e =>
      match eval fr e g with
      | (Val v, g1) => (Normal, assign fr id v, g1)
      | (Err x, g1) => (Raised x, fr, g1)
      end
  | SetItem id index e =>
      match eval fr e g with
      | (Val x, g1) =>
          match eval fr (Name id) g1 with
          | (Val v, g2) =>
              match eval fr index g2 with
              | (Val i, g3) =>
                  match setitem v i x with
                  | Val v' => (Normal, store fr id v', g3)
                  | Err x => (Raised x, fr, g3)
                  end
              | (Err x, g3) => (Raised x, fr, g3)
              end
          | (Err x, g2) => (Raised x, fr, g2)
          end
      | (Err x, g1) => (Raised x, fr, g1)
      end
  | For a b iter body =>
      match eval fr iter g with
      | (Val (VList items), g1) => run_loop (exec body) a b items fr g1
      | (Val _, g1) => (Raised (Exn TypeError), fr, g1)
      | (Err x, g1) => (Raised x, fr, g1)
      end
  | Seq s1 s2 =>
      match exec s1 fr g with
      | (Normal, fr', g') => exec s2 fr' g'
      | stop => stop
      end
  | Return e =>
      match eval fr e g with
      | (Val v, g1) => (Returned v, fr, g1)
      | (Err x, g1) => (Raised x, fr, g1)
      end
  end.

(** *** What a statement leaves behind *)










(** The binding of the parameters of a call to the positional and the
    keyword arguments: by
    position, then by keyword, then by default; [TypeError] for an argument
    too many, an unknown or repeated keyword, a parameter given twice or
    not at all. *)
Definition bind_args (d : def) (args : seq value) (kwargs : namespace)
    : res namespace :=
  let given := take (size args) (params d) in
  let keywords := [seq kv.1 | kv <- kwargs] in
  if [&& size args <= size (params d), uniq keywords,
         all (fun k => (k \in params d) && (k \notin given)) keywords
       & all (fun p => (p \in given) || (p \in keywords)
                       || (p \in [seq kv.1 | kv <- defaults d]))
             (params d)]
  then
    Val [seq (p.2,
              if p.1 < size args then nth VNone args p.1
              else if find kwargs p.2 is Some v then v
              else if find (defaults d) p.2 is Some v then v else VNone)
        | p <- zip (iota 0 (size (params d))) (params d)]
  else Err (Exn TypeError).

(** A call of a function defined in the notebook, from the global
    namespace [G]: the value returned or the exception raised, and the
    namespace and the generator the call leaves. *)
Definition call (d : def) (args : seq value) (kwargs : namespace)
    (G : namespace) (g : generator) : res value * namespace * generator :=
  match bind_args d args kwargs with
  | Val L =>
      match exec (body d) (Frame (Some L) G) g with
      | (Normal, fr, g') => (Val VNone, globals fr, g')
      | (Returned v, fr, g') => (Val v, globals fr, g')
      | (Raised x, fr, g') => (Err x, globals fr, g')
      end
  | Err x => (Err x, G, g)
  end.

(** A cell, run at the top level. *)
Definition run_cell (s : stmt) (G : namespace) (g : generator)
    : status * namespace * generator :=
  match exec s (Frame None G) g with
  | (st, fr, g') => (st, globals fr, g')
  end.

(** *** Calls of the helpers *)







(** *** The conversion cell *)

Definition top (G : namespace) : frame := Frame None G.








(** *** The cell computes the design matrix of [Labeler] *)

Lemma find_of_json (members : dict json) (k : string) :
  find [seq (let: (k, v) := kv in (k, of_json v)) | kv <- members] k
  = if dict_get members k is Ok v then Some (of_json v) else None.
Proof.
elim: members => [|[k' v] members IH] //=.
by case: (k' == k).
Qed.

Lemma dict_get_raises (V : Type) (d : dict V) (k : string) (e : exn) :
  dict_get d k = Raise e -> e = KeyError k.
Proof.
elim: d => [|[k' v] d IH] /=; first by case.
by case: (k' == k).
Qed.

(** Subscripting a decoded JSON value by a string is [Labeler.getitem]. *)
Lemma subscript_of_json (j : json) (k : string) :
  subscript (of_json j) (VStr k) = of_result of_json (getitem j k).
Proof.
case: j => //= members; rewrite find_of_json.
by case get: (dict_get members k) => [v|e] //=; rewrite (dict_get_raises get).
Qed.

Lemma of_json_labels (labels : seq string) :
  of_json (json_labels labels) = of_strings labels.
Proof. by rewrite /= -map_comp. Qed.

Lemma index_of_strings (names : seq string) (l : string) :
  index_of [seq VStr s | s <- names] (VStr l) = list_index names l.
Proof.
elim: names => [|name names IH] //=.
by case: (name == l) => //; rewrite IH.
Qed.

Lemma position_nat (n k : nat) :
  position n (Z.of_nat k) = if k < n then Some k else None.
Proof.
rewrite /position.
have -> : Z.ltb (Z.of_nat k) 0 = false by apply/Z.ltb_ge; lia.
have -> : Z.leb 0 (Z.of_nat k) = true by apply/Z.leb_le; lia.
rewrite Nat2Z.id /=; case: ltP => [lt_k|ge_k].
  by have -> : Z.ltb (Z.of_nat k) (Z.of_nat n) = true by apply/Z.ltb_lt; lia.
by have -> : Z.ltb (Z.of_nat k) (Z.of_nat n) = false by apply/Z.ltb_ge; lia.
Qed.

Lemma setitem_nat (M : ndarray2) (i j : nat) (y : float) :
  setitem (VArray2 M) (VList [:: VInt (Z.of_nat i); VInt (Z.of_nat j)])
    (VFloat y)
  = of_result VArray2 (setitem2 M i j y).
Proof.
rewrite /setitem /nrows position_nat.
case: ifP => [lt_i|ge_i]; last by rewrite /setitem2 ge_i.
by rewrite position_nat; case: ifP => [lt_j|ge_j]; rewrite /setitem2 lt_i ?lt_j ?ge_j.
Qed.

(** The items [enumerate] hands to the loop, from the index [k] on. *)
Definition loop_items (k : nat) (labels : seq string) : seq value :=
  [seq VList [:: VInt (Z.of_nat ix.1); ix.2]
  | ix <- zip (iota k (size labels)) [seq VStr s | s <- labels]].

Lemma conversion_loop_run (names labels : seq string) (k : nat)
    (M : ndarray2) (fr : frame) (g : generator) :
  locals fr = None ->
  lookup fr "feature_names" = Val (of_strings names) ->
  lookup fr "X" = Val (VArray2 M) ->
  exists fr',
    [/\ locals fr' = None,
        lookup fr' "feature_names" = Val (of_strings names)
      & match onehot_loop names (enumerate_from k labels) M with
        | Ok M' =>
            run_loop (exec loop_body) "i" "this_label" (loop_items k labels)
              fr g = (Normal, fr', g)
            /\ lookup fr' "X" = Val (VArray2 M')
        | Raise e =>
            run_loop (exec loop_body) "i" "this_label" (loop_items k labels)
              fr g = (Raised (Exn e), fr', g)
        end].
Proof.
elim: labels k M fr => [|l labels IH] k M fr top_fr names_fr X_fr.
  by exists fr; split.
rewrite /loop_items /= -/(loop_items k.+1 labels).
set fr1 := assign (assign fr "i" _) "this_label" _.
have names1 : lookup fr1 "feature_names" = Val (of_strings names).
  by rewrite !lookup_assign.
have label1 : lookup fr1 "this_label" = Val (VStr l).
  by rewrite !lookup_assign.
have i1 : lookup fr1 "i" = Val (VInt (Z.of_nat k)).
  by rewrite !lookup_assign.
have X1 : lookup fr1 "X" = Val (VArray2 M) by rewrite !lookup_assign.
have top1 : locals fr1 = None by rewrite /fr1 /assign top_fr.
rewrite /and_then /result_of names1 label1 /= index_of_strings.
case: (list_index names l) => [j|e] /=; last by exists fr1; split.
set fr2 := assign fr1 "j" _.
have top2 : locals fr2 = None by rewrite /fr2 /assign top1.
have -> : lookup fr2 "X" = Val (VArray2 M) by rewrite lookup_assign.
have -> : lookup fr2 "i" = Val (VInt (Z.of_nat k)) by rewrite lookup_assign.
have -> : lookup fr2 "j" = Val (VInt (Z.of_nat j)) by rewrite lookup_assign.
have names2 : lookup fr2 "feature_names" = Val (of_strings names).
  by rewrite lookup_assign.
rewrite setitem_nat.
case: (setitem2 M k j 1%float) => [M1|e] /=; last by exists fr2; split.
set fr3 := store fr2 "X" _.
have top3 : locals fr3 = None by rewrite /fr3 /store top2.
have names3 : lookup fr3 "feature_names" = Val (of_strings names).
  by rewrite lookup_store.
have X3 : lookup fr3 "X" = Val (VArray2 M1) by rewrite lookup_store.
exact: IH.
Qed.

Lemma exec_assign_val (fr : frame) (id : string) (e : expr) (g : generator)
    (v : value) :
  eval fr e g = (Val v, g) ->
  exec (Assign id e) fr g = (Normal, assign fr id v, g).
Proof. by move=> /= ->. Qed.

Lemma exec_seq_normal (s1 s2 : stmt) (fr fr1 : frame) (g g1 : generator) :
  exec s1 fr g = (Normal, fr1, g1) ->
  exec (Seq s1 s2) fr g = exec s2 fr1 g1.
Proof. by move=> /= ->. Qed.

Lemma exec_for_items (a b : string) (iter : expr) (body : stmt) (fr : frame)
    (g : generator) (items : seq value) :
  eval fr iter g = (Val (VList items), g) ->
  exec (For a b iter body) fr g = run_loop (exec body) a b items fr g.
Proof. by move=> /= ->. Qed.

Lemma lookup_top_Some (G : namespace) (id : string) (v : value) :
  find G id = Some v -> lookup (top G) id = Val v.
Proof. by rewrite /lookup /= => ->. Qed.

Lemma find_of_lookup (fr : frame) (id : string) (v : value) :
  locals fr = None -> builtins id = None -> lookup fr id = Val v ->
  find (globals fr) id = Some v.
Proof.
rewrite /lookup => -> ->.
by case: (find (globals fr) id) => [w|] // [->].
Qed.

(** X30.  From a global namespace that holds the notebook's [tag_dict],
    the decoded file and NumPy, the cell ends as [Labeler.design_matrix]
    says: with the same array bound to [X], or with the same exception. *)
Lemma conversion_cell_design_matrix (G : namespace) (g : generator)
    (features : json) (labels : seq string) :
  find G "tag_dict" = Some (of_tag_dict tag_dict) ->
  find G "features" = Some (of_json features) ->
  find G "np" = Some (VModule "numpy") ->
  find G "len" = None -> find G "enumerate" = None ->
  feature_labels features = Ok (json_labels labels) ->
  exists G',
    match design_matrix distance_features labels with
    | Ok M => run_cell conversion_cell G g = (Normal, G', g)
              /\ find G' "X" = Some (VArray2 M)
    | Raise e => run_cell conversion_cell G g = (Raised (Exn e), G', g)
    end.
Proof.
move=> tag_dict_G features_G np_G len_G enumerate_G read.
have [specs get_specs get_labels] := feature_labels_inv read.
rewrite /run_cell /conversion_cell.
set fr0 := top G.
have E1 : eval fr0 (Subscript (Name "tag_dict") (StrLit "distance")) g
          = (Val (of_strings distance_features), g).
  by rewrite /= /and_then /result_of (lookup_top_Some tag_dict_G).
rewrite (exec_seq_normal _ (exec_assign_val _ E1)).
set fr1 := assign fr0 _ _.
have E2 : eval fr1 (Subscript (Subscript (Name "features") (StrLit "tag_specs"))
                      (StrLit "distance")) g
          = (Val (of_strings labels), g).
  rewrite /= /and_then /result_of lookup_assign /= (lookup_top_Some features_G) /=.
  rewrite subscript_of_json get_specs /= subscript_of_json get_labels /=.
  by rewrite -map_comp.
rewrite (exec_seq_normal _ (exec_assign_val _ E2)).
set fr2 := assign fr1 _ _.
have len0 : lookup fr0 "len" = Val (VBuiltin "len").
  by rewrite /lookup /= len_G.
have E3 : eval fr2 (Call (Name "len") (Name "feature_labels")) g
          = (Val (VInt (Z.of_nat (size labels))), g).
  by rewrite /= /and_then /result_of !lookup_assign /= len0 /= /result_of /builtin /= size_map.
rewrite (exec_seq_normal _ (exec_assign_val _ E3)).
set fr3 := assign fr2 _ _.
have E4 : eval fr3 (Call (Name "len") (Name "feature_names")) g
          = (Val (VInt (Z.of_nat (size distance_features))), g).
  by rewrite /= /and_then /result_of !lookup_assign /= len0 /= /result_of /builtin /= ?size_map.
rewrite (exec_seq_normal _ (exec_assign_val _ E4)).
set fr4 := assign fr3 _ _.
have E5 : eval fr4 (Call (Attr (Name "np") "zeros")
                      (Tuple (Name "n_images") (Name "n_features"))) g
          = (Val (VArray2 (np_zeros (size labels, size distance_features))), g).
  rewrite /= /and_then /result_of !lookup_assign /= (lookup_top_Some np_G) /=.
  rewrite /result_of /builtin /=.
  have -> : Z.leb 0 (Z.of_nat (size labels)) = true by apply/Z.leb_le; lia.
  by rewrite /= !Nat2Z.id.
rewrite (exec_seq_normal _ (exec_assign_val _ E5)).
set fr5 := assign fr4 _ _.
have top5 : locals fr5 = None by [].
have names5 : lookup fr5 "feature_names" = Val (of_strings distance_features).
  by rewrite !lookup_assign.
have X5 : lookup fr5 "X"
          = Val (VArray2 (np_zeros (size labels, size distance_features))).
  by rewrite !lookup_assign.
have E6 : eval fr5 (Call (Name "enumerate") (Name "feature_labels")) g
          = (Val (VList (loop_items 0 labels)), g).
  rewrite /= /and_then /result_of.
  have -> : lookup fr5 "enumerate" = Val (VBuiltin "enumerate").
    by rewrite !lookup_assign /= /lookup /= enumerate_G.
  by rewrite !lookup_assign /= /result_of /builtin /= size_map.
rewrite /conversion_loop (exec_for_items _ _ _ E6).
have [fr' [top' _]] := conversion_loop_run labels 0 g top5 names5 X5.
rewrite /design_matrix /enumerate.
case: (onehot_loop _ _ _) => [M'|e] => [[-> X']|->]; exists (globals fr') => //.
by split=> //; apply: find_of_lookup X'.
Qed.

(** *** The helper [ridge] computes [Ridge.ridge] *)

(** X31.  Called with a two-dimensional [X], a one-dimensional [Y] and a
    double [a] from a namespace that binds [np] to NumPy, the text of
    [ridge] returns what [Ridge.ridge] returns, or raises what it raises,
    and leaves the namespace and the generator as they were. *)
Lemma call_ridge_def (X : matrix) (Y : vector) (a : float) (G : namespace)
    (g : generator) :
  find G "np" = Some (VModule "numpy") ->
  call ridge_def [:: VArray2 X; VArray1 Y; VFloat a] [::] G g
  = (of_result VArray1 (Ridge.ridge X Y a), G, g).
Proof.
move=> np_G; rewrite /call /= /and_then /result_of /= /lookup /= np_G /=.
rewrite /Ridge.ridge /builtin /binary /=.
have -> : Z.leb 0 (Z.of_nat (ncols X)) = true by apply/Z.leb_le; lia.
rewrite Nat2Z.id.
case: (dot (transpose X) X) => [XtX|e] //=.
rewrite /result_of /=.
case: (np_linalg_inv _) => [inverse|e] //=.
case: (dot_vec (transpose X) Y) => [XtY|e] //=.
by case: (dot_vec inverse XtY) => [b|e].
Qed.

(** *** What [gauss] and [sinx] compute, and where randomness enters *)

Definition then_ {A B : Type} (r : res A) (k : A -> res B) : res B :=
  match r with
  | Val a => k a
  | Err e => Err e
  end.

(** [amp * np.e**(-(x-mu)**2 / (2*sigma))]: the operations and their
    order. *)
Lemma call_gauss_def (x mu sigma amp : value) (G : namespace)
    (g : generator) :
  find G "np" = Some (VModule "numpy") ->
  call gauss_def [:: x; mu; sigma; amp] [::] G g
  = (then_ (binary Sub x mu) (fun d =>
     then_ (binary Pow d (VInt 2)) (fun d2 =>
     then_ (negative d2) (fun n =>
     then_ (binary Mul (VInt 2) sigma) (fun s2 =>
     then_ (binary Div n s2) (fun q =>
     then_ (binary Pow (VFloat 2.718281828459045) q) (fun p =>
     binary Mul amp p)))))),
     G, g).
Proof.
move=> np_G; rewrite /call /= /and_then /result_of /= /lookup /= np_G /=.
case: (binary Sub x mu) => [d|e] //=.
case: (binary Pow d _) => [d2|e] //=.
case: (negative d2) => [n|e] //=.
case: (binary Mul _ sigma) => [s2|e] //=.
case: (binary Div n s2) => [q|e] //=.
case: (binary Pow _ q) => [p|e] //=.
by case: (binary Mul amp p).
Qed.

(** [np.sin(x * 2 * np.pi * freq + phase) * amp] *)
Lemma call_sinx_def (x freq phase amp : value) (G : namespace)
    (g : generator) :
  find G "np" = Some (VModule "numpy") ->
  call sinx_def [:: x; freq; phase; amp] [::] G g
  = (then_ (binary Mul x (VInt 2)) (fun x2 =>
     then_ (binary Mul x2 (VFloat 3.141592653589793)) (fun x2pi =>
     then_ (binary Mul x2pi freq) (fun turns =>
     then_ (binary Add turns phase) (fun angle =>
     then_ (builtin "numpy.sin" angle) (fun s =>
     binary Mul s amp))))),
     G, g).
Proof.
move=> np_G; rewrite /call /= /and_then /result_of /= /lookup /= np_G /=.
case: (binary Mul x _) => [x2|e] //=.
case: (binary Mul x2 _) => [x2pi|e] //=.
case: (binary Mul x2pi freq) => [turns|e] //=.
case: (binary Add turns phase) => [angle|e] //=.
rewrite /result_of; case: (builtin _ angle) => [s|e] //=.
by case: (binary Mul s amp).
Qed.

(** A call of a function of [np.random] goes through [draw]. *)
Lemma np_random_draws (fr : frame) (name : string) (x : expr)
    (g : generator) :
  lookup fr "np" = Val (VModule "numpy") -> name \in drawing_names ->
  eval fr (Call (Attr (Attr (Name "np") "random") name) x) g
  = match eval fr x g with
    | (Val xv, g') => draw name xv g'
    | (Err e, g') => (Err e, g')
    end.
Proof.
by move=> np_fr drawing; rewrite /= /and_then /result_of np_fr /= drawing.
Qed.


End Interpreter.

(** *** A kernel to run the programs

    A generator that counts its draws; the primitives without a model
    refuse their operands. *)

Definition counting_draw (name : string) (x : value) (g : nat)
    : res value * nat :=
  (Val (VFloat 0), g.+1).

Definition no_arithmetic (op : binop) (v w : value) : res value :=
  Err (Exn TypeError).

Definition no_negative (v : value) : res value := Err (Exn TypeError).

Definition no_subscript (v i : value) : res value := Err (Exn TypeError).

Definition no_builtin (name : string) (x : value) : res value :=
  Err (Exn TypeError).

Definition no_method (self : value) (name : string) (x : value) : res value :=
  Err (Exn TypeError).

Definition no_setitem (v i x : value) : res value := Err (Exn TypeError).

Definition run_cell_demo (s : stmt) (G : namespace) (g : nat)
    : status * namespace * nat :=
  run_cell counting_draw no_arithmetic no_negative no_subscript no_builtin
    no_method no_setitem s G g.

Definition call_demo (d : def) (args : seq value) (kwargs G : namespace)
    (g : nat) : res value * namespace * nat :=
  call counting_draw no_arithmetic no_negative no_subscript no_builtin
    no_method no_setitem d args kwargs G g.

(** The notebook after cell 7, for two label files. *)
Definition numpy : value := VModule "numpy".

Definition notebook (labels : seq string) : namespace :=
  [:: ("features",
       of_json (JObject [:: ("tag_specs",
                             JObject [:: ("distance", json_labels labels)])]));
      ("tag_dict", of_tag_dict tag_dict);
      ("np", numpy)].


(** Where randomness enters: a call [np.random.normal(...)] advances the
    generator, a call of [ridge] does not. *)
Lemma np_random_normal_draws :
  let fr := Frame None (notebook [::]) in
  eval counting_draw no_arithmetic no_negative no_subscript no_builtin
    no_method
    fr (Call (Attr (Attr (Name "np") "random") "normal") (FloatLit 0)) 7
  = (Val (VFloat 0), 8).
Proof. by vm_compute. Qed.


Lemma conversion_cell_design_matrix_witness :
  let labels := [:: "untagged"; "<2 ft"] in
  exists G',
    match design_matrix distance_features labels with
    | Ok M => run_cell_demo conversion_cell (notebook labels) 0 = (Normal, G', 0)
              /\ find G' "X" = Some (VArray2 M)
    | Raise e =>
        run_cell_demo conversion_cell (notebook labels) 0
        = (Raised (Exn e), G', 0)
    end.
Proof.
exact: (@conversion_cell_design_matrix nat counting_draw no_arithmetic
          no_negative no_subscript no_builtin no_method no_setitem
          (notebook [:: "untagged"; "<2 ft"]) 0
          (JObject [:: ("tag_specs",
                        JObject [:: ("distance",
                                     json_labels [:: "untagged"; "<2 ft"])])])
          [:: "untagged"; "<2 ft"]
          (erefl _) (erefl _) (erefl _) (erefl _) (erefl _) (erefl _)).
Defined.

Lemma call_ridge_def_witness :
  let X := [:: [:: 1; 0]; [:: 1; 1]; [:: 1; 2]]%float in
  let Y := [:: 1; 2; 2]%float in
  call_demo ridge_def [:: VArray2 X; VArray1 Y; VFloat 0] [::] (notebook [::]) 0
  = (of_result VArray1 (Ridge.ridge X Y 0%float), notebook [::], 0).
Proof.
exact: (@call_ridge_def nat counting_draw no_arithmetic no_negative
          no_subscript no_builtin no_method no_setitem
          [:: [:: 1; 0]; [:: 1; 1]; [:: 1; 2]]%float [:: 1; 2; 2]%float
          0%float (notebook [::]) 0 (erefl _)).
Defined.

End Kernel.


(** ** More on the labeler notebook: failures, slices and counts *)

Module Conversion.

Import Labeler.

Local Open Scope string_scope.

(** A row of [n_features] zeros with [1.0] written at column [j]. *)
Definition one_hot_row (n_features j : nat) : seq float :=
  set_nth 0%float (nseq n_features 0%float) j 1%float.

(** The slices [X[:k]] and [X[k:]] of a list or of the rows of an array,
    for a non-negative [k]. *)
Definition slice_to {T : Type} (k : nat) (s : seq T) : seq T := take k s.
Definition slice_from {T : Type} (k : nat) (s : seq T) : seq T := drop k s.

(** The number of rows of [X] that hold [1.0] in column [j]. *)
Definition column_count (X : ndarray2) (j : nat) : nat :=
  count (fun row => PrimFloat.eqb (nth 0%float row j) 1%float) X.

(** The first label outside the vocabulary stops the loop with the
    [ValueError] of [index]; the writes before it were in bounds. *)
Lemma onehot_loop_ValueError (feature_names labels : seq string) (k : nat)
    (X : ndarray2) :
  ~~ all (fun l => l \in feature_names) labels ->
  k + size labels <= size X ->
  (forall i, i < size X -> size (nth [::] X i) = size feature_names) ->
  onehot_loop feature_names (enumerate_from k labels) X = Raise ValueError.
Proof.
elim: labels k X => [|x ls IH] k X //=.
rewrite negb_and addnS => unknown klt rows.
have kX : k < size X by apply: leq_ltn_trans klt; rewrite leq_addr.
case xin: (x \in feature_names) unknown => /= unknown; last first.
  by rewrite list_index_notin // xin.
have jlt : index x feature_names < size (nth [::] X k).
  by rewrite rows // index_mem.
rewrite (list_index_mem xin) /= setitem2_ok //=.
apply: IH => //; first by rewrite size_set_nth_in // addSn.
move=> i; rewrite size_set_nth_in // => ilt; rewrite nth_set_nth /=.
by case: eqP => _; [rewrite size_set_nth_in // rows | rewrite rows].
Qed.

Lemma nth_one_hot_row (n j j' : nat) :
  nth 0%float (one_hot_row n j) j' = if j' == j then 1%float else 0%float.
Proof. by rewrite /one_hot_row nth_set_nth /= nth_nseq if_same. Qed.

(** The conversion, in closed form. *)
Lemma design_matrix_closed_form (feature_names feature_labels : seq string) :
  design_matrix feature_names feature_labels
  = if all (fun l => l \in feature_names) feature_labels
    then Ok [seq one_hot_row (size feature_names) (index l feature_names)
            | l <- feature_labels]
    else Raise ValueError.
Proof.
case: ifP => [known|/negbT unknown].
  have [X [-> szX rowsX]] := design_matrix_rows known.
  congr (Ok _); apply: (@eq_from_nth _ [::]); first by rewrite size_map.
  move=> i; rewrite szX => ilt.
  by rewrite rowsX // (nth_map "") //.
apply: onehot_loop_ValueError => //; first by rewrite /np_zeros size_nseq.
by move=> i; rewrite /np_zeros size_nseq /= => ilt; rewrite nth_nseq ilt size_nseq.
Qed.

(** X1.  The two outcomes of the conversion: it returns one one-hot row
    per label, in order, and then every label is in the vocabulary; or it
    raises [ValueError], and then some label is outside the vocabulary.  It
    raises nothing else. *)
Theorem design_matrix_outcomes (feature_names feature_labels : seq string) :
  match design_matrix feature_names feature_labels with
  | Ok X =>
      all (fun l => l \in feature_names) feature_labels /\
      X = [seq one_hot_row (size feature_names) (index l feature_names)
          | l <- feature_labels]
  | Raise e =>
      e = ValueError /\ has (fun l => l \notin feature_names) feature_labels
  end.
Proof.
rewrite design_matrix_closed_form; case: ifP => // /negbT.
by rewrite -has_predC.
Qed.

(** X2.  Slicing commutes with the conversion: the first [k] rows of the
    design matrix are the design matrix of the first [k] labels, and the
    remaining rows that of the remaining labels. *)
Theorem design_matrix_slices (feature_names feature_labels : seq string)
    (X : ndarray2) (k : nat) :
  design_matrix feature_names feature_labels = Ok X ->
  design_matrix feature_names (slice_to k feature_labels) = Ok (slice_to k X) /\
  design_matrix feature_names (slice_from k feature_labels)
  = Ok (slice_from k X).
Proof.
rewrite !design_matrix_closed_form /slice_to /slice_from.
rewrite -{1}(cat_take_drop k feature_labels) all_cat.
case: (all _ (take _ _)) => //=; case: (all _ (drop _ _)) => //= -[<-].
by rewrite map_take map_drop.
Qed.

Lemma design_matrix_slices_witness :
  design_matrix distance_features
    (slice_to 2 [:: "untagged"; "<2 ft"; "> 100 ft"])
  = Ok (slice_to 2 [:: one_hot_row 6 5; one_hot_row 6 0; one_hot_row 6 4]) /\
  design_matrix distance_features
    (slice_from 2 [:: "untagged"; "<2 ft"; "> 100 ft"])
  = Ok (slice_from 2 [:: one_hot_row 6 5; one_hot_row 6 0; one_hot_row 6 4]).
Proof.
apply: (@design_matrix_slices distance_features
          [:: "untagged"; "<2 ft"; "> 100 ft"]).
by vm_compute.
Defined.

(** X3.  The design matrix of a concatenation of label lists is the
    concatenation of their design matrices, row block after row block. *)
Theorem design_matrix_cat (feature_names est val : seq string)
    (X_est X_val : ndarray2) :
  design_matrix feature_names est = Ok X_est ->
  design_matrix feature_names val = Ok X_val ->
  design_matrix feature_names (est ++ val)%SEQ = Ok (X_est ++ X_val)%SEQ.
Proof.
rewrite !design_matrix_closed_form all_cat.
by case: (all _ est) => //= -[<-]; case: (all _ val) => //= -[<-]; rewrite map_cat.
Qed.

Lemma design_matrix_cat_witness :
  design_matrix distance_features
    ([:: "untagged"; "<2 ft"] ++ [:: "> 100 ft"])%SEQ
  = Ok ([:: one_hot_row 6 5; one_hot_row 6 0] ++ [:: one_hot_row 6 4])%SEQ.
Proof.
by apply: (@design_matrix_cat distance_features); vm_compute.
Defined.

(** X4.  Column [j] of the design matrix holds [1.0] in as many rows as
    there are labels whose first occurrence in the vocabulary is at [j]. *)
Theorem design_matrix_column_count (feature_names feature_labels : seq string)
    (X : ndarray2) (j : nat) :
  design_matrix feature_names feature_labels = Ok X ->
  column_count X j
  = count (fun l => index l feature_names == j) feature_labels.
Proof.
rewrite design_matrix_closed_form; case: ifP => // _ [<-].
rewrite /column_count count_map; apply: eq_count => l /=.
by rewrite nth_one_hot_row eq_sym; case: eqP.
Qed.

Lemma design_matrix_column_count_witness :
  column_count [:: one_hot_row 6 5; one_hot_row 6 0; one_hot_row 6 5] 5
  = count (fun l => index l distance_features == 5)
      [:: "untagged"; "<2 ft"; "untagged"].
Proof.
by apply: (@design_matrix_column_count distance_features); vm_compute.
Defined.

(** A dictionary lookup raises nothing but the [KeyError] of its key, and
    that exactly when the key is absent. *)
Lemma dict_get_KeyError (V : Type) (d : dict V) (k : string) (e : Py.exn) :
  dict_get d k = Raise e -> e = KeyError k /\ k \notin [seq kv.1 | kv <- d].
Proof.
elim: d => [|[k' v] d IH] /=; first by case.
by rewrite in_cons (eq_sym k); case: (k' == k) => //= /IH.
Qed.

Lemma dict_get_Ok (V : Type) (d : dict V) (k : string) (v : V) :
  dict_get d k = Ok v -> k \in [seq kv.1 | kv <- d].
Proof.
elim: d => [|[k' v'] d IH] //=.
by rewrite in_cons (eq_sym k); case: (k' == k) => //= /IH.
Qed.

(** X5.  What the retrieval of the labels can do: it returns the value at
    ['tag_specs'], ['distance']; it raises [KeyError] with the name of the
    key that is missing, at the level where it is missing; it raises
    [TypeError] when the decoded file, or its ['tag_specs'] entry, is not an
    object; it raises nothing else. *)
Theorem feature_labels_outcomes (features : json) :
  match feature_labels features with
  | Ok labels =>
      exists members specs,
        [/\ features = JObject members,
            dict_get members "tag_specs" = Ok (JObject specs)
          & dict_get specs "distance" = Ok labels]
  | Raise (KeyError key) =>
      exists members,
        features = JObject members /\
        (key = "tag_specs" /\ "tag_specs" \notin [seq kv.1 | kv <- members] \/
         key = "distance" /\
         exists2 specs, dict_get members "tag_specs" = Ok (JObject specs)
                      & "distance" \notin [seq kv.1 | kv <- specs])
  | Raise TypeError =>
      (forall members, features <> JObject members) \/
      exists members specs,
        [/\ features = JObject members,
            dict_get members "tag_specs" = Ok specs
          & forall inner, specs <> JObject inner]
  | Raise _ => False
  end.
Proof.
rewrite /feature_labels; case: features => [|b|n|s|items|members] /=;
  try by left.
case top: (dict_get members "tag_specs") => [specs|e] /=.
  case: specs top => [|b|n|s|items|inner] top /=;
    try by right; eexists; eexists; split; [reflexivity | exact: top | ].
  case low: (dict_get inner "distance") => [labels|e] /=.
    by exists members, inner.
  have [-> absent] := dict_get_KeyError low.
  by exists members; split=> //; right; split=> //; exists inner.
have [-> absent] := dict_get_KeyError top.
by exists members; split=> //; left.
Qed.

End Conversion.

(** ** More on [sinx]: its bound *)

Module CurveFacts.

Import CurveFit.

Section Shapes.

Local Open Scope R_scope.


End Shapes.

End CurveFacts.


(** ** The error surfaces of the curve-fitting notebook

    Arrays of reals are lists, two-dimensional arrays lists of rows.  The
    two error-surface cells are the same pair of nested loops around a
    different prediction; the loops are written once, over the computation
    of one entry. *)

Module Surface.

Import CurveFit.

Section Loops.

Local Open Scope R_scope.

Definition array2 : Type := seq (seq R).

(** [np.zeros((m, n))] *)
Definition zeros (shape : nat * nat) : array2 :=
  nseq shape.1 (nseq shape.2 0).

(** [E[i, j] = v], in place; [IndexError] out of bounds. *)
Definition setitem (E : array2) (i j : nat) (v : R) : result array2 :=
  if ((i < size E) && (j < size (nth [::] E i)))%N
  then Ok (set_nth [::] E i (set_nth 0 (nth [::] E i) j v))
  else Raise IndexError.

(** [enumerate(l)] *)
Fixpoint enumerate_from {T : Type} (start : nat) (l : seq T)
    : seq (nat * T) :=
  match l with
  | [::] => [::]
  | v :: l' => (start, v) :: enumerate_from start.+1 l'
  end.

Definition enumerate {T : Type} (l : seq T) : seq (nat * T) :=
  enumerate_from 0 l.

(** [y - g] for one-dimensional arrays, with numpy's broadcasting: equal
    lengths, or one of the two of length 1; [ValueError] otherwise. *)
Definition subtract (y g : seq R) : result (seq R) :=
  if size y == size g then Ok [seq p.1 - p.2 | p <- zip y g]
  else if size g == 1%N then Ok [seq v - nth 0 g 0 | v <- y]
  else if size y == 1%N then Ok [seq nth 0 y 0 - v | v <- g]
  else Raise ValueError.

(** [d**2] and [np.sum(d)] *)
Definition square (d : seq R) : seq R := [seq v ^ 2 | v <- d].

Definition np_sum (d : seq R) : R := foldr Rplus 0 d.

(** [sinx] on an array. *)
Definition sinx_array (x : seq R) (freq phase amp : R) : seq R :=
  [seq sinx v freq phase amp | v <- x].

(** The body of the inner loop of the Gauss cell, up to the assignment:
    [g = gauss(x, mu_, sigma_, amp=1)]
    [resids = np.sum((y-g)**2)] *)
Definition gauss_resids (x y : seq R) (mu_ sigma_ : R) : result R :=
  g <- gauss_array x mu_ sigma_ 1 ;;
  d <- subtract y g ;;
  Ok (np_sum (square d)).

(** The same for the sine cell:
    [yhat = sinx(x, freq_, phase_, amp=1)]
    [resids = np.sum((y-yhat)**2)] *)
Definition sin_resids (x y : seq R) (freq_ phase_ : R) : result R :=
  let yhat := sinx_array x freq_ phase_ 1 in
  d <- subtract y yhat ;;
  Ok (np_sum (square d)).

Section Nested.

(** [resids p q]: the entry for the pair of parameters [(p, q)]. *)
Variable resids : R -> R -> result R.

(** [for j, q in enumerate(qs): ...; E[i, j] = resids] *)
Fixpoint inner_loop (i : nat) (p : R) (it : seq (nat * R)) (E : array2)
    : result array2 :=
  match it with
  | [::] => Ok E
  | (j, q) :: rest =>
      r <- resids p q ;;
      E' <- setitem E i j r ;;
      inner_loop i p rest E'
  end.

(** [for i, p in enumerate(ps): for j, q in enumerate(qs): ...] *)
Fixpoint outer_loop (qs : seq R) (it : seq (nat * R)) (E : array2)
    : result array2 :=
  match it with
  | [::] => Ok E
  | (i, p) :: rest =>
      E' <- inner_loop i p (enumerate qs) E ;;
      outer_loop qs rest E'
  end.

Definition surface (np nq : nat) (ps qs : seq R) : result array2 :=
  outer_loop qs (enumerate ps) (zeros (np, nq)).

End Nested.

(** The Gauss cell:
    [error_surface_gauss = np.zeros((nmu, nsig))]
    [for imu, mu_ in enumerate(mu_vals):]
    [    for isig, sigma_ in enumerate(sigma_vals): ...] *)
Definition error_surface_gauss (nmu nsig : nat) (mu_vals sigma_vals : seq R)
    (x y : seq R) : result array2 :=
  surface (gauss_resids x y) nmu nsig mu_vals sigma_vals.

(** The sine cell:
    [error_surface_sin = np.zeros((nf, nph))]
    [for ifreq, freq_ in enumerate(freq_vals):]
    [    for iphase, phase_ in enumerate(phase_vals): ...] *)
Definition error_surface_sin (nf nph : nat) (freq_vals phase_vals : seq R)
    (x y : seq R) : result array2 :=
  surface (sin_resids x y) nf nph freq_vals phase_vals.

(** The sum of the squared differences of two arrays of one length. *)
Definition squared_error (y g : seq R) : R :=
  np_sum [seq (p.1 - p.2) ^ 2 | p <- zip y g].

(** The curve of [gauss] with amplitude 1, where [sigma] is not zero. *)
Definition gauss_curve (x : seq R) (mu sigma : R) : seq R :=
  [seq 1 * exp (- ((v - mu) ^ 2) / (2 * sigma)) | v <- x].

Lemma np_sum_square_ge0 (d : seq R) : 0 <= np_sum (square d).
Proof.
elim: d => [|v d IH] /=; first by Lra.lra.
by have := pow2_ge_0 v; rewrite /= in IH *; Lra.lra.
Qed.

Lemma squared_error_ge0 (y g : seq R) : 0 <= squared_error y g.
Proof.
rewrite /squared_error; have := np_sum_square_ge0 [seq p.1 - p.2 | p <- zip y g].
by rewrite /square -map_comp.
Qed.

Lemma subtract_same_size (y g : seq R) :
  size y = size g -> subtract y g = Ok [seq p.1 - p.2 | p <- zip y g].
Proof. by rewrite /subtract => ->; rewrite eqxx. Qed.

Lemma gauss_resids_value (x y : seq R) (mu_ sigma_ : R) :
  sigma_ <> 0 -> size x = size y ->
  gauss_resids x y mu_ sigma_
  = Ok (squared_error y (gauss_curve x mu_ sigma_)).
Proof.
move=> sigma0 sz; rewrite /gauss_resids gauss_array_value //=.
rewrite subtract_same_size ?size_map //=.
by rewrite /squared_error /square -map_comp.
Qed.

Lemma sin_resids_value (x y : seq R) (freq_ phase_ : R) :
  size x = size y ->
  sin_resids x y freq_ phase_
  = Ok (squared_error y (sinx_array x freq_ phase_ 1)).
Proof.
move=> sz; rewrite /sin_resids /= subtract_same_size ?size_map //=.
by rewrite /squared_error /square -map_comp.
Qed.

Lemma setitem_ok (E : array2) (i j : nat) (v : R) :
  (i < size E)%N -> (j < size (nth [::] E i))%N ->
  setitem E i j v = Ok (set_nth [::] E i (set_nth 0 (nth [::] E i) j v)).
Proof. by rewrite /setitem => -> ->. Qed.

Section Invariants.

Variable resids : R -> R -> result R.
Variable value : R -> R -> R.

(** The inner loop over the parameters numbered from [k] rewrites the
    entries [k], [k + 1], ... of row [i] and nothing else. *)
Lemma inner_loop_entries (i : nat) (p : R) (qs : seq R) (k : nat)
    (E : array2) :
  (forall q, List.In q qs -> resids p q = Ok (value p q)) ->
  (i < size E)%N ->
  (k + size qs <= size (nth [::] E i))%N ->
  exists E',
    [/\ inner_loop resids i p (enumerate_from k qs) E = Ok E',
        size E' = size E,
        forall i', i' <> i -> nth [::] E' i' = nth [::] E i',
        size (nth [::] E' i) = size (nth [::] E i)
      & forall j,
          nth 0 (nth [::] E' i) j
          = if (k <= j < k + size qs)%N then value p (nth 0 qs (j - k))
            else nth 0 (nth [::] E i) j].
Proof.
elim: qs k E => [|q qs IH] k E /=.
  move=> _ _ _; exists E; split=> // j.
  by rewrite addn0; case: ltngtP.
move=> ok iE; rewrite addnS => klt.
have kj : (k < size (nth [::] E i))%N.
  by apply: leq_ltn_trans klt; rewrite leq_addr.
rewrite (ok q (or_introl erefl)) /=.
rewrite setitem_ok //=; set E1 := set_nth _ E i _.
have sz1 : size E1 = size E by rewrite Labeler.size_set_nth_in.
have row1 : nth [::] E1 i = set_nth 0 (nth [::] E i) k (value p q).
  by rewrite nth_set_nth /= eqxx.
have [| | |E' [run szE' others szrow entries]] := IH k.+1 E1.
- by move=> q' q'in; apply: ok; right.
- by rewrite sz1.
- by rewrite row1 Labeler.size_set_nth_in // addSn.
exists E'; split=> //.
- by rewrite szE'.
- move=> i' ne; rewrite others // nth_set_nth /=.
  by case: eqP.
- by rewrite szrow row1 Labeler.size_set_nth_in.
move=> j; rewrite entries row1 nth_set_nth /= addSn ltnS.
case: (ltngtP k j) => [lt_kj|lt_jk|<-] /=.
- have -> : (j - k = (j - k.+1).+1)%N by rewrite subnS prednK // subn_gt0.
  by [].
- by [].
- by rewrite leq_addr subnn.
Qed.

(** The outer loop over the parameters numbered from [k] rewrites the rows
    [k], [k + 1], ... and leaves the others. *)
Lemma outer_loop_entries (ps qs : seq R) (k : nat) (E : array2) :
  (forall p q, List.In p ps -> List.In q qs -> resids p q = Ok (value p q)) ->
  (k + size ps <= size E)%N ->
  (forall i, (i < size E)%N -> size (nth [::] E i) = size qs) ->
  exists E',
    [/\ outer_loop resids qs (enumerate_from k ps) E = Ok E',
        size E' = size E
      & forall i,
          nth [::] E' i
          = if (k <= i < k + size ps)%N
            then [seq value (nth 0 ps (i - k)) q | q <- qs]
            else nth [::] E i].
Proof.
elim: ps k E => [|p ps IH] k E /=.
  move=> _ _ _; exists E; split=> // i.
  by rewrite addn0; case: ltngtP.
move=> ok; rewrite addnS => klt rows.
have kE : (k < size E)%N by apply: leq_ltn_trans klt; rewrite leq_addr.
have [| |E1 [-> sz1 others szrow entries]] //= :=
  @inner_loop_entries k p qs 0 E _ kE.
- by move=> q qin; apply: ok => //; left.
- by rewrite add0n rows.
have row1 : nth [::] E1 k = [seq value p q | q <- qs].
  apply: (@eq_from_nth _ 0); first by rewrite szrow rows // size_map.
  move=> j; rewrite szrow rows // => jlt.
  by rewrite entries add0n /= jlt subn0 (nth_map 0).
have [| | |E' [run szE' rowsE']] := IH k.+1 E1.
- by move=> p' q p'in qin; apply: ok => //; right.
- by rewrite sz1 addSn.
- move=> i; rewrite sz1 => ilt; have [->|ne] := eqVneq i k.
    by rewrite row1 size_map.
  by rewrite others ?rows //; apply/eqP.
exists E'; split=> //; first by rewrite szE'.
move=> i; rewrite rowsE' addSn ltnS.
case: (ltngtP k i) => [lt_ki|lt_ik|<-] /=.
- have -> : (i - k = (i - k.+1).+1)%N by rewrite subnS prednK // subn_gt0.
  by rewrite /= others // => eq_ik; rewrite eq_ik ltnn in lt_ki.
- by rewrite others // => eq_ik; rewrite eq_ik ltnn in lt_ik.
- by rewrite leq_addr subnn row1.
Qed.

(** The whole surface, when the shape of the array matches the numbers of
    parameters. *)
Lemma surface_entries (ps qs : seq R) :
  (forall p q, List.In p ps -> List.In q qs -> resids p q = Ok (value p q)) ->
  surface resids (size ps) (size qs) ps qs
  = Ok [seq [seq value p q | q <- qs] | p <- ps].
Proof.
move=> ok; rewrite /surface /enumerate.
have [| |E [-> szE rowsE]] :=
  @outer_loop_entries ps qs 0 (zeros (size ps, size qs)) ok.
- by rewrite /zeros size_nseq.
- by move=> i; rewrite /zeros size_nseq /= => ilt; rewrite nth_nseq ilt size_nseq.
congr (Ok _); apply: (@eq_from_nth _ [::]).
  by rewrite szE /zeros size_nseq size_map.
move=> i; rewrite szE /zeros size_nseq /= => ilt.
by rewrite rowsE add0n /= ilt subn0 (nth_map 0).
Qed.

End Invariants.

(** X24.  The Gauss error surface: with as many rows and columns as there
    are values of [mu] and of [sigma], no [sigma] zero and [x], [y] of one
    length, the cell fills every entry [imu, isig] with the sum of the
    squared differences between [y] and the curve for [mu_vals[imu]],
    [sigma_vals[isig]]; no entry is negative. *)
Theorem error_surface_gauss_entries (mu_vals sigma_vals x y : seq R) :
  (forall sigma_, List.In sigma_ sigma_vals -> sigma_ <> 0) ->
  size x = size y ->
  exists E,
    [/\ error_surface_gauss (size mu_vals) (size sigma_vals)
          mu_vals sigma_vals x y = Ok E,
        E = [seq [seq squared_error y (gauss_curve x mu_ sigma_)
                 | sigma_ <- sigma_vals] | mu_ <- mu_vals]
      & forall imu isig, 0 <= nth 0 (nth [::] E imu) isig].
Proof.
move=> sigma0 sz.
exists [seq [seq squared_error y (gauss_curve x mu_ sigma_)
            | sigma_ <- sigma_vals] | mu_ <- mu_vals]; split=> //.
  apply: surface_entries => mu_ sigma_ _ /sigma0 ne.
  exact: gauss_resids_value.
move=> imu isig.
have [iin|iout] := ltnP imu (size mu_vals); last first.
  by rewrite [nth [::] _ _]nth_default ?size_map // nth_nil; Lra.lra.
rewrite (nth_map 0) //.
have [jin|jout] := ltnP isig (size sigma_vals); last first.
  by rewrite nth_default ?size_map //; Lra.lra.
by rewrite (nth_map 0) //; exact: squared_error_ge0.
Qed.

Lemma error_surface_gauss_entries_witness :
  exists E,
    [/\ error_surface_gauss 1 2 [:: 0] [:: 1; 2] [:: 0; 1] [:: 1; 0] = Ok E,
        E = [seq [seq squared_error [:: 1; 0] (gauss_curve [:: 0; 1] mu_ sigma_)
                 | sigma_ <- [:: 1; 2]] | mu_ <- [:: 0]]
      & forall imu isig, 0 <= nth 0 (nth [::] E imu) isig].
Proof.
apply: (@error_surface_gauss_entries [:: 0] [:: 1; 2] [:: 0; 1] [:: 1; 0]) => //.
by move=> sigma_ /= [<-|[<-|[]]]; Lra.lra.
Defined.

(** X25.  The sine error surface: with [x] and [y] of one length the cell
    cannot fail, and fills every entry [ifreq, iphase] with the sum of the
    squared differences between [y] and the sine for [freq_vals[ifreq]],
    [phase_vals[iphase]]. *)
Theorem error_surface_sin_entries (freq_vals phase_vals x y : seq R) :
  size x = size y ->
  error_surface_sin (size freq_vals) (size phase_vals)
    freq_vals phase_vals x y
  = Ok [seq [seq squared_error y (sinx_array x freq_ phase_ 1)
            | phase_ <- phase_vals] | freq_ <- freq_vals].
Proof.
move=> sz; apply: surface_entries => freq_ phase_ _ _.
exact: sin_resids_value.
Qed.

Lemma error_surface_sin_entries_witness :
  error_surface_sin 1 2 [:: 0] [:: 1; 2] [:: 0; 1] [:: 1; 0]
  = Ok [seq [seq squared_error [:: 1; 0] (sinx_array [:: 0; 1] freq_ phase_ 1)
            | phase_ <- [:: 1; 2]] | freq_ <- [:: 0]].
Proof.
exact: (@error_surface_sin_entries [:: 0] [:: 1; 2] [:: 0; 1] [:: 1; 0]).
Defined.

End Loops.

End Surface.

(** ** The linearized model of the curve-fitting notebook: the design
    matrix of Gaussian regressors and the reshaped weights *)

Module Linearized.

Import CurveFit Surface.

Section Regressors.

Local Open Scope R_scope.

(** [for mu_ in mu_vals:]
    [    this_regressor = gauss(x, mu_, sigma_)]
    [    gausses.append(this_regressor)] *)
Fixpoint append_mus (x : seq R) (sigma_ : R) (mus : seq R)
    (gausses : seq (seq R)) : result (seq (seq R)) :=
  match mus with
  | [::] => Ok gausses
  | mu_ :: rest =>
      this_regressor <- gauss_array x mu_ sigma_ 1 ;;
      append_mus x sigma_ rest (rcons gausses this_regressor)
  end.

(** [for sigma_ in sigma_vals: for mu_ in mu_vals: ...] *)
Fixpoint append_sigmas (x mu_vals : seq R) (sigmas : seq R)
    (gausses : seq (seq R)) : result (seq (seq R)) :=
  match sigmas with
  | [::] => Ok gausses
  | sigma_ :: rest =>
      gausses' <- append_mus x sigma_ mu_vals gausses ;;
      append_sigmas x mu_vals rest gausses'
  end.

(** [np.vstack(rows)] of one-dimensional arrays: [ValueError] without a
    row, or with rows of different lengths. *)
Definition np_vstack (rows : seq (seq R)) : result array2 :=
  match rows with
  | [::] => Raise ValueError
  | r0 :: _ =>
      if all (fun r => size r == size r0) rows then Ok rows
      else Raise ValueError
  end.

(** [A.T] *)
Definition transpose (A : array2) : array2 :=
  [seq [seq nth 0 row c | row <- A] | c <- iota 0 (size (head [::] A))].

(** [gausses = []], the two loops, and [Xreg = np.vstack(gausses).T]. *)
Definition Xreg (mu_vals sigma_vals x : seq R) : result array2 :=
  gausses <- append_sigmas x mu_vals sigma_vals [::] ;;
  stacked <- np_vstack gausses ;;
  Ok (transpose stacked).

(** [np.reshape(B, (rows, columns))]: [ValueError] unless [B] has
    [rows * columns] entries. *)
Definition np_reshape (B : seq R) (shape : nat * nat) : result array2 :=
  if size B == (shape.1 * shape.2)%N
  then Ok (reshape (nseq shape.1 shape.2) B)
  else Raise ValueError.

(** [b_square = np.reshape(B_est, (nmu, nsig))] *)
Definition b_square (nmu nsig : nat) (B_est : seq R) : result array2 :=
  np_reshape B_est (nmu, nsig).

(** The regressors in the order of the loops: [sigma] outside, [mu]
    inside. *)
Definition regressors (mu_vals sigma_vals x : seq R) : seq (seq R) :=
  [seq gauss_curve x mu_ sigma_ | sigma_ <- sigma_vals, mu_ <- mu_vals].

Lemma append_mus_value (x : seq R) (sigma_ : R) (mus : seq R)
    (gausses : seq (seq R)) :
  sigma_ <> 0 ->
  append_mus x sigma_ mus gausses
  = Ok (gausses ++ [seq gauss_curve x mu_ sigma_ | mu_ <- mus])%SEQ.
Proof.
move=> sigma0; elim: mus gausses => [|mu_ mus IH] gausses /=.
  by rewrite cats0.
by rewrite gauss_array_value //= IH -cats1 -catA.
Qed.

Lemma append_sigmas_value (x mu_vals sigmas : seq R) (gausses : seq (seq R)) :
  (forall sigma_, List.In sigma_ sigmas -> sigma_ <> 0) ->
  append_sigmas x mu_vals sigmas gausses
  = Ok (gausses ++ regressors mu_vals sigmas x)%SEQ.
Proof.
elim: sigmas gausses => [|sigma_ sigmas IH] gausses /= sigma0.
  by rewrite /regressors /= cats0.
have rest0 : forall s, List.In s sigmas -> s <> 0.
  by move=> s sin; apply: sigma0; right.
rewrite (append_mus_value _ _ _ (sigma0 _ (or_introl erefl))) /= (IH _ rest0).
by rewrite /regressors allpairs_cons catA.
Qed.

(** Without values of [mu] the loops append nothing, whatever [sigma]. *)
Lemma append_sigmas_no_mu (x sigmas : seq R) (gausses : seq (seq R)) :
  append_sigmas x [::] sigmas gausses = Ok gausses.
Proof. by elim: sigmas => [|sigma_ sigmas IH]. Qed.

(** The number of the column for the pair [(isig, imu)] is a column. *)
Lemma column_index_lt (nsig nmu isig imu : nat) :
  (isig < nsig)%N -> (imu < nmu)%N -> (isig * nmu + imu < nsig * nmu)%N.
Proof.
move=> slt mlt; apply: leq_trans (leq_mul slt (leqnn nmu)).
by rewrite mulSn addnC ltn_add2r.
Qed.

Lemma size_regressors (mu_vals sigma_vals x : seq R) :
  size (regressors mu_vals sigma_vals x)
  = (size sigma_vals * size mu_vals)%N.
Proof. by rewrite /regressors size_allpairs. Qed.

Lemma nth_regressors (mu_vals sigma_vals x : seq R) (isig imu : nat) :
  (isig < size sigma_vals)%N -> (imu < size mu_vals)%N ->
  nth [::] (regressors mu_vals sigma_vals x) (isig * size mu_vals + imu)
  = gauss_curve x (nth 0 mu_vals imu) (nth 0 sigma_vals isig).
Proof.
rewrite /regressors; elim: sigma_vals isig => [|s ss IH] [|isig] // slt mlt.
  by rewrite allpairs_cons nth_cat size_map mul0n add0n mlt (nth_map 0).
rewrite allpairs_cons nth_cat size_map mulSn -addnA.
by rewrite ltnNge leq_addr /= addKn IH.
Qed.

Lemma all_size_regressors (mu_vals sigma_vals x : seq R) (n : nat) :
  n = size x ->
  all (fun r => size r == n) (regressors mu_vals sigma_vals x).
Proof.
move=> ->; rewrite /regressors.
elim: sigma_vals => [|s ss IH] //; rewrite allpairs_cons all_cat IH andbT.
by elim: mu_vals {IH} => [|mu_ mus IHm] //=; rewrite size_map eqxx.
Qed.

(** The design matrix in closed form. *)
Lemma Xreg_value (mu_vals sigma_vals x : seq R) :
  (forall sigma_, List.In sigma_ sigma_vals -> sigma_ <> 0) ->
  (0 < size mu_vals)%N -> (0 < size sigma_vals)%N ->
  Xreg mu_vals sigma_vals x
  = Ok [seq [seq nth 0 row r | row <- regressors mu_vals sigma_vals x]
       | r <- iota 0 (size x)].
Proof.
move=> sigma0 mu_gt0 sig_gt0.
rewrite /Xreg (append_sigmas_value _ _ _ sigma0) /= ?cat0s.
have := size_regressors mu_vals sigma_vals x.
have := all_size_regressors mu_vals sigma_vals (erefl (size x)).
case: (regressors _ _ _) => [|r0 rows] /=.
  by move=> _ /esym/eqP; rewrite muln_eq0 !eqn0Ngt sig_gt0 mu_gt0.
case/andP=> /eqP sz0 same _.
rewrite sz0 eqxx /=.
have -> : all (fun r => size r == size x) rows = true by [].
by rewrite /transpose /= sz0.
Qed.

(** X26.  The design matrix of the linearized model: with no [sigma] zero
    and at least one value of each parameter, [Xreg] has one row per entry
    of [x] and one column per pair of parameters, and its column
    [isig * nmu + imu] holds the Gaussian for [mu_vals[imu]] and
    [sigma_vals[isig]]. *)
Theorem Xreg_columns (mu_vals sigma_vals x : seq R) :
  (forall sigma_, List.In sigma_ sigma_vals -> sigma_ <> 0) ->
  (0 < size mu_vals)%N -> (0 < size sigma_vals)%N ->
  exists X,
    [/\ Xreg mu_vals sigma_vals x = Ok X,
        size X = size x,
        forall r, (r < size x)%N ->
          size (nth [::] X r) = (size sigma_vals * size mu_vals)%N
      & forall r isig imu,
          (r < size x)%N -> (isig < size sigma_vals)%N ->
          (imu < size mu_vals)%N ->
          nth 0 (nth [::] X r) (isig * size mu_vals + imu)
          = 1 * exp (- ((nth 0 x r - nth 0 mu_vals imu) ^ 2)
                     / (2 * nth 0 sigma_vals isig))].
Proof.
move=> sigma0 mu_gt0 sig_gt0; rewrite Xreg_value //; eexists; split=> //.
- by rewrite size_map size_iota.
- move=> r rlt; rewrite (nth_map 0%N) ?size_iota // size_map.
  exact: size_regressors.
move=> r isig imu rlt slt mlt.
rewrite (nth_map 0%N) ?size_iota // nth_iota // add0n.
have klt := column_index_lt slt mlt.
rewrite -(size_regressors mu_vals sigma_vals x) in klt.
by rewrite (nth_map [::] _ _ klt) nth_regressors // /gauss_curve (nth_map 0).
Qed.

Lemma Xreg_columns_witness :
  exists X,
    [/\ Xreg [:: 0; 1] [:: 1; 2; 3] [:: 5] = Ok X,
        size X = size [:: 5],
        forall r, (r < size [:: 5])%N ->
          size (nth [::] X r) = (size [:: 1; 2; 3] * size [:: 0; 1])%N
      & forall r isig imu,
          (r < size [:: 5])%N -> (isig < size [:: 1; 2; 3])%N ->
          (imu < size [:: 0; 1])%N ->
          nth 0 (nth [::] X r) (isig * size [:: 0; 1] + imu)
          = 1 * exp (- ((nth 0 [:: 5] r - nth 0 [:: 0; 1] imu) ^ 2)
                     / (2 * nth 0 [:: 1; 2; 3] isig))].
Proof.
apply: (@Xreg_columns [:: 0; 1] [:: 1; 2; 3] [:: 5]) => //.
by move=> sigma_ /= [<-|[<-|[<-|[]]]]; Lra.lra.
Defined.

(** X27.  Without a value of [mu], or without a value of [sigma], there is
    no regressor to stack: the cell raises the [ValueError] of
    [np.vstack]. *)
Theorem Xreg_no_regressor (mu_vals sigma_vals x : seq R) :
  mu_vals = [::] \/ sigma_vals = [::] ->
  Xreg mu_vals sigma_vals x = Raise ValueError.
Proof.
by case=> ->; rewrite /Xreg ?append_sigmas_no_mu.
Qed.

Lemma Xreg_no_regressor_witness :
  Xreg [::] [:: 0; 1] [:: 5] = Raise ValueError.
Proof. by apply: Xreg_no_regressor; left. Defined.

Lemma nth_np_reshape (B : seq R) (rows columns i j : nat) :
  size B = (rows * columns)%N -> (i < rows)%N -> (j < columns)%N ->
  nth 0 (nth [::] (reshape (nseq rows columns) B) i) j
  = nth 0 B (i * columns + j).
Proof.
move=> szB ilt jlt; rewrite nth_reshape nth_nseq ilt.
have -> : sumn (take i (nseq rows columns)) = (i * columns)%N.
  have -> : take i (nseq rows columns) = nseq i columns.
    by rewrite -[in LHS](subnKC (ltnW ilt)) nseqD take_size_cat ?size_nseq.
  by rewrite sumn_nseq mulnC.
rewrite nth_take // nth_drop.
by [].
Qed.

(** X28.  On a square grid of [n] values of [mu] and [n] of [sigma], the
    weight that [b_square] shows at row [isig], column [imu] is the weight
    number [isig * n + imu], the one of the column of [Xreg] that holds the
    Gaussian for [mu_vals[imu]] and [sigma_vals[isig]]: the rows of
    [b_square] follow [sigma] and its columns [mu]. *)
Theorem b_square_rows_follow_sigma (n : nat) (mu_vals sigma_vals x B_est
    : seq R) :
  (forall sigma_, List.In sigma_ sigma_vals -> sigma_ <> 0) ->
  (0 < n)%N -> size mu_vals = n -> size sigma_vals = n ->
  size B_est = (n * n)%N ->
  exists X S,
    [/\ Xreg mu_vals sigma_vals x = Ok X,
        b_square n n B_est = Ok S
      & forall isig imu, (isig < n)%N -> (imu < n)%N ->
          nth 0 (nth [::] S isig) imu = nth 0 B_est (isig * n + imu) /\
          forall r, (r < size x)%N ->
            nth 0 (nth [::] X r) (isig * n + imu)
            = nth 0 (gauss_curve x (nth 0 mu_vals imu)
                       (nth 0 sigma_vals isig)) r].
Proof.
move=> sigma0 n_gt0 szmu szsig szB.
rewrite Xreg_value ?szmu ?szsig // /b_square /np_reshape szB eqxx /=.
do 2![eexists]; split=> // isig imu slt mlt; split.
  exact: nth_np_reshape.
move=> r rlt; rewrite (nth_map 0%N) ?size_iota // nth_iota // add0n.
have klt : (isig * n + imu < size (regressors mu_vals sigma_vals x))%N.
  by rewrite size_regressors szmu szsig; exact: column_index_lt.
by rewrite (nth_map [::] _ _ klt) -[in LHS]szmu nth_regressors ?szmu ?szsig.
Qed.

Lemma b_square_rows_follow_sigma_witness :
  exists X S,
    [/\ Xreg [:: 0; 1] [:: 1; 2] [:: 5] = Ok X,
        b_square 2 2 [:: 10; 20; 30; 40] = Ok S
      & forall isig imu, (isig < 2)%N -> (imu < 2)%N ->
          nth 0 (nth [::] S isig) imu
          = nth 0 [:: 10; 20; 30; 40] (isig * 2 + imu) /\
          forall r, (r < size [:: 5])%N ->
            nth 0 (nth [::] X r) (isig * 2 + imu)
            = nth 0 (gauss_curve [:: 5] (nth 0 [:: 0; 1] imu)
                       (nth 0 [:: 1; 2] isig)) r].
Proof.
apply: (@b_square_rows_follow_sigma 2 [:: 0; 1] [:: 1; 2] [:: 5]) => //.
by move=> sigma_ /= [<-|[<-|[]]]; Lra.lra.
Defined.

End Regressors.

End Linearized.
